(** * oligocast test fixtures: the delta generator [testing/deltatest2.py]

    A shallow embedding of the script and the properties of its command
    stream (stdout) and expected-output stream (stderr).

    The script is a Python program over module-level globals, the [random]
    module and [socket.inet_ntop].  It is embedded as a state-and-error monad
    over a [world] that holds the generator state and a chronological log of
    what the process did: every call to the [random] module with its result,
    every call of [mkaddr] with its arguments and result, and every line
    printed.  Nothing in the script reads the log.

    Three smaller fixtures follow the generator: the address list
    generator [testing/addrlist.py], the report checker
    [testing/namerunner_parse.py], whose regular expressions are embedded
    as functions on the line, and the command feeder [cmdcat.py], embedded
    over a [Host] that stands for [int], [float], [sleep] and the file
    system. *)

From Stdlib Require Import ZArith QArith Ascii String List Lia.
From Stdlib Require Import HexadecimalString HexadecimalN.
From stdpp Require Import base list sorting strings pretty gmap.

Local Open Scope string_scope.
Local Open Scope list_scope.
Local Open Scope Z_scope.

(** ** The runtime the script relies on *)

Inductive address_family := AF_INET | AF_INET6.

(** The services of the Python runtime that the script calls: the [random]
    module ([seed], [uniform], [randrange], and the index that [choice]
    draws) and [socket.inet_ntop].  The laws are the documented ranges of
    the results. *)
Class Runtime (G : Type) := {
  rt_seed : Z -> G;
  rt_uniform : Q -> Q -> G -> Q * G;
  rt_randrange : Z -> Z -> G -> Z * G;
  rt_randbelow : nat -> G -> nat * G;
  inet_ntop : address_family -> list Z -> string;
  rt_uniform_range : forall a b g,
    (a <= b)%Q -> (a <= fst (rt_uniform a b g) <= b)%Q;
  rt_randrange_range : forall lo hi g,
    lo < hi -> lo <= fst (rt_randrange lo hi g) < hi;
  rt_randbelow_range : forall n g,
    (0 < n)%nat -> (fst (rt_randbelow n g) < n)%nat
}.

(** ** Exceptions, events and the monad *)

Inductive exn :=
| IndexError                  (* rnd.choice on an empty sequence *)
| ValueError                  (* rnd.randrange on an empty range *)
| Exception (msg : string).   (* raise Exception(msg) *)

Inductive event :=
| Uniform (a b r : Q)                    (* rnd.uniform(a, b) returned r *)
| Randrange (lo hi r : Z)                (* rnd.randrange(lo, hi) returned r *)
| Choice (n i : nat)                     (* rnd.choice on n items took item i *)
| ChoiceEmpty                            (* rnd.choice on an empty sequence *)
| Mkaddr (b : option Z) (d : Q) (r : Z)  (* mkaddr(b, d) returned r *)
| Stdout (line : string)                 (* print(line, file= stdout) *)
| Stderr (line : string).                (* print(line, file= stderr) *)

Inductive result (A : Type) :=
| Ok (x : A)
| Raise (e : exn)
| OutOfFuel.
Arguments Ok {A} x.
Arguments Raise {A} e.
Arguments OutOfFuel {A}.

Record world (G : Type) := World { gen : G; log : list event }.
Arguments World {G} gen log.
Arguments gen {G} w.
Arguments log {G} w.

Definition M (G A : Type) : Type := world G -> result A * world G.

Definition ret {G A} (x : A) : M G A := fun w => (Ok x, w).

Definition bind {G A B} (m : M G A) (k : A -> M G B) : M G B :=
  fun w =>
    match m w with
    | (Ok x, w') => k x w'
    | (Raise e, w') => (Raise e, w')
    | (OutOfFuel, w') => (OutOfFuel, w')
    end.

Definition raise {G A} (e : exn) : M G A := fun w => (Raise e, w).

Definition out_of_fuel {G A} : M G A := fun w => (OutOfFuel, w).

Definition emit_event {G} (e : event) : M G unit :=
  fun w => (Ok tt, World (gen w) (log w ++ [e])).

Declare Scope monad_scope.
Delimit Scope monad_scope with monad.
Notation "x <- m ;; k" := (bind m (fun x => k))
  (at level 100, m at next level, k at level 200, right associativity)
  : monad_scope.
Notation "m ;; k" := (bind m (fun _ => k))
  (at level 100, k at level 200, right associativity) : monad_scope.
Local Open Scope monad_scope.

(** Strict comparison of two rationals, as a boolean. *)
Definition Qltb (x y : Q) : bool :=
  (Qnum x * Zpos (Qden y) <? Qnum y * Zpos (Qden x))%Z.

(** The float that the literal [0.6] denotes.  It lies below 6/10 and is
    itself a value that [rnd.uniform(0, 1)] can return, so the comparison
    of a draw with it is written with the float itself.  The floats that
    [0.2] and [0.4] denote lie above 2/10 and 4/10 with no float of the
    form k/2^53 in between, so a draw is below the one exactly when it is
    below the other. *)
Definition float_0_6 : Q := 5404319552844595 # 9007199254740992.

(** The lines written to each stream, in order. *)
Definition stdout_of (l : list event) : list string :=
  omap (fun e => match e with Stdout s => Some s | _ => None end) l.

Definition stderr_of (l : list event) : list string :=
  omap (fun e => match e with Stderr s => Some s | _ => None end) l.

(** The three delta kinds, named by the marker the script stores in
    [deltype]. *)
Definition kind_marker (k : string) : Prop := k = "" \/ k = "+" \/ k = "-".

Section Program.
Context {G : Type} `{RT : Runtime G}.

(** *** The [random] module, with its calls logged *)

Definition rnd_uniform (a b : Q) : M G Q :=
  fun w =>
    let '(r, g) := rt_uniform a b (gen w) in
    (Ok r, World g (log w ++ [Uniform a b r])).

(** [rnd.randrange(lo, hi)] raises ValueError on an empty range. *)
Definition rnd_randrange (lo hi : Z) : M G Z :=
  fun w =>
    if lo <? hi then
      let '(r, g) := rt_randrange lo hi (gen w) in
      (Ok r, World g (log w ++ [Randrange lo hi r]))
    else (Raise ValueError, w).

(** [rnd.choice(seq)] raises IndexError on an empty sequence, otherwise
    it returns [seq[i]] for a drawn index [i] below [len(seq)]. *)
Definition rnd_choice {A} (xs : list A) : M G A :=
  fun w =>
    match xs with
    | [] => (Raise IndexError, World (gen w) (log w ++ [ChoiceEmpty]))
    | x0 :: _ =>
        let '(i, g) := rt_randbelow (length xs) (gen w) in
        (Ok (nth i xs x0), World g (log w ++ [Choice (length xs) i]))
    end.

Definition print_stdout (s : string) : M G unit := emit_event (Stdout s).
Definition print_stderr (s : string) : M G unit := emit_event (Stderr s).

(** *** Utility functions of the script *)

Variable ipver : Z.

(** [addrout(a)]: the bytes of [a], most significant first, handed to
    [inet_ntop]. *)
Definition addrout (a : Z) : string :=
  if ipver =? 4 then
    inet_ntop AF_INET
      (map (fun i => Z.land (Z.shiftr a i) 255) [24; 16; 8; 0])
  else
    inet_ntop AF_INET6
      (map (fun i => Z.land (Z.shiftr a i) 255)
         [120; 112; 104; 96; 88; 80; 72; 64; 56; 48; 40; 32; 24; 16; 8; 0]).

(** [addrsout(a_s)] *)
Definition addrsout (a_s : list Z) : string :=
  match a_s with
  | [] => "-"
  | _ => String.concat "," (map addrout a_s)
  end.

(** [mkbits(l, d)]: the [for i in range(l)] loop, [n] iterations left,
    at index [i], with accumulator [b]. *)
Fixpoint mkbits_loop (n : nat) (i : Z) (d : Q) (b : Z) : M G Z :=
  match n with
  | O => ret b
  | S n' =>
      u <- rnd_uniform 0 1 ;;
      mkbits_loop n' (i + 1) d (if Qltb u d then b + Z.shiftl 1 i else b)
  end.

Definition mkbits (l : nat) (d : Q) : M G Z := mkbits_loop l 0 d 0.

(** [mkaddr(b, d)] *)
Definition mkaddr (b : option Z) (d : Q) : M G Z :=
  r <- (if ipver =? 4 then
          let b' := match b with None => 0x0a000000 | Some v => v end in
          m <- mkbits 24 d ;; ret (Z.lxor b' m)
        else
          let b' := match b with
                    | None => 0xfd05aaaa000000000000000000000000
                    | Some v => v
                    end in
          m <- mkbits 96 d ;; ret (Z.lxor b' m)) ;;
  emit_event (Mkaddr b d r) ;;
  ret r.

(** *** Module-level state *)

Variables addrmax numops : Z.

(** The globals the main loop assigns.  [deltype] and [delta] are unbound
    in Python until the first branch assigns them; every branch assigns
    both before anything reads them. *)
Record globals := Globals {
  sources : list Z;
  a : option Z;
  o : Z;
  deltype : string;
  delta : list Z
}.

Definition modden : Q := if ipver =? 4 then 2 # 10 else 5 # 100.

(** [sorted(...)] on integers. *)
Definition sorted (l : list Z) : list Z := merge_sort Z.le l.

(** [for s in l: st.add(s)] *)
Definition add_all (st : gset Z) (l : list Z) : gset Z :=
  foldl (fun acc s => acc ∪ {[s]}) st l.

(** *** Building a delta list

    The script spells out the same [while] loop three times.  The copies
    differ in the bound of [lencrit], in the sequence a candidate may be
    re-selected from ([delta] itself for an absolute set, [sources]
    otherwise) and in the probability of re-selection. *)

Definition lencrit (bound : Z) : M G Z := rnd_randrange 0 bound.

(** [len(delta) < lencrit() or len(delta) < lencrit()], with the second
    draw made only when the first comparison fails. *)
Definition loop_test (bound : Z) (dl : list Z) : M G bool :=
  r1 <- lencrit bound ;;
  if Z.of_nat (length dl) <? r1 then ret true
  else r2 <- lencrit bound ;; ret (Z.of_nat (length dl) <? r2).

(** [if len(pool) and rnd.uniform(0, 1) < p: a = rnd.choice(pool)
     else: a = mkaddr(a, rnd.uniform(0, modden))] *)
Definition candidate (pool : list Z) (p : Q) (prev : option Z) : M G Z :=
  reselect <- match pool with
              | [] => ret false
              | _ => u <- rnd_uniform 0 1 ;; ret (Qltb u p)
              end ;;
  if reselect then rnd_choice pool
  else d <- rnd_uniform 0 modden ;; mkaddr prev d.

Fixpoint delta_loop (fuel : nat) (bound : Z) (pool : list Z -> list Z)
    (p : Q) (prev : option Z) (dl : list Z) : M G (option Z * list Z) :=
  match fuel with
  | O => out_of_fuel
  | S fuel' =>
      go <- loop_test bound dl ;;
      if go then
        x <- candidate (pool dl) p prev ;;
        delta_loop fuel' bound pool p (Some x) (dl ++ [x])
      else ret (prev, dl)
  end.

(** *** One pass through the body of the main loop *)

Inductive control := Continue | Fallthrough.

(** do an absolute set: -Ea,b,c *)
Definition absolute_branch (st : globals) : M G (control * globals) :=
  r <- delta_loop (Z.to_nat addrmax) addrmax (fun dl => dl) (4 # 10)
         (a st) [] ;;
  ret (Fallthrough, Globals (sorted (snd r)) (fst r) (o st) "" (snd r)).

(** do a subtractive delta: -E-a,b,c *)
Definition subtractive_branch (st : globals) : M G (control * globals) :=
  let bound := Z.of_nat (length (sources st))
               + Z.shiftr (Z.of_nat (length (sources st))) 2 + 1 in
  r <- delta_loop (Z.to_nat bound) bound (fun _ => sources st) float_0_6
         (a st) [] ;;
  if (length (snd r) =? 0)%nat then
    ret (Continue, Globals (sources st) (fst r) (o st) "-" (snd r))
  else
    let dx := add_all ∅ (snd r) in
    let sources2 := filter (fun s => s ∉ dx) (sources st) in
    ret (Fallthrough, Globals sources2 (fst r) (o st) "-" (snd r)).

(** do an additive delta: -E+a,b,c *)
Definition additive_branch (st : globals) : M G (control * globals) :=
  r <- delta_loop (Z.to_nat addrmax) addrmax (fun _ => sources st) (4 # 10)
         (a st) [] ;;
  let a_s := add_all (add_all ∅ (sources st)) (snd r) in
  if addrmax <=? Z.of_nat (size a_s) then
    ret (Continue, Globals (sources st) (fst r) (o st) "+" (snd r))
  else if (length (snd r) =? 0)%nat then
    ret (Continue, Globals (sources st) (fst r) (o st) "+" (snd r))
  else
    ret (Fallthrough,
         Globals (sorted (elements a_s)) (fst r) (o st) "+" (snd r)).

(** The part of the loop body that chooses and runs a branch. *)
Definition choose_and_build (st : globals) : M G (control * globals) :=
  absolute <- (if o st =? 0 then ret true
               else u <- rnd_uniform 0 1 ;; ret (Qltb u (2 # 10))) ;;
  if absolute then absolute_branch st
  else
    subtractive <- rnd_choice [false; true] ;;
    if subtractive then subtractive_branch st else additive_branch st.

(** emit commands and their expected output *)
Definition emit (st : globals) : M G unit :=
  print_stdout ("-E" +:+ deltype st +:+ addrsout (delta st)) ;;
  print_stderr
    ("received command for x -E" +:+ deltype st +:+ addrsout (delta st)) ;;
  print_stdout "?E" ;;
  print_stderr "received command for x ?E" ;;
  print_stderr ("note: x source setting: -E" +:+ addrsout (sources st)).

(** The whole loop body: on [continue] nothing is printed and [o] stays;
    otherwise the five lines are printed and [o] is incremented. *)
Definition loop_body (st : globals) : M G globals :=
  r <- choose_and_build st ;;
  match fst r with
  | Continue => ret (snd r)
  | Fallthrough =>
      emit (snd r) ;;
      ret (Globals (sources (snd r)) (a (snd r)) (o (snd r) + 1)
             (deltype (snd r)) (delta (snd r)))
  end.

(** [while o < numops: ...], cut off after [n] passes through the body:
    the result is the state of the globals when the loop is left or, if
    it has not been left by then, after the [n]-th pass. *)
Fixpoint while_loop (n : nat) (st : globals) : M G globals :=
  match n with
  | O => ret st
  | S n' =>
      if o st <? numops then
        st' <- loop_body st ;;
        while_loop n' st'
      else ret st
  end.

Definition initial_globals : globals := Globals [] None 0 "" [].

Inductive status :=
| Running               (* still inside the main loop *)
| Exited (code : Z).    (* exit(code) *)

(** Everything after [rnd.seed(seed)], with the main loop cut off after
    [n] passes. *)
Definition script_body (n : nat) : M G (status * globals) :=
  if negb (ipver =? 4) && negb (ipver =? 6) then
    raise (Exception "ipver must be 4 or 6")
  else if addrmax <? 1 then raise (Exception "addrmax must be positive")
  else if numops <? 1 then raise (Exception "numops must be positive")
  else
    st <- while_loop n initial_globals ;;
    if o st <? numops then ret (Running, st)
    else
      print_stdout ".x" ;;
      print_stderr "received command for x .x" ;;
      ret (Exited 0, st).

End Program.

Arguments globals : clear implicits.

(** The script run on its four command-line parameters, with at most [n]
    passes through the main loop.  The parameters are the values of
    [int(argv[1])] to [int(argv[4])]; the check of [len(argv)] and the
    conversions come before anything modelled here. *)
Definition run {G} `{RT : Runtime G} (n : nat)
    (seed ipver addrmax numops : Z)
    : result (status * globals) * world G :=
  script_body ipver addrmax numops n (World (rt_seed seed) []).

(** ** A scripted runtime

    A runtime whose draws are read off a tape of natural numbers, one
    number per call: [uniform(a, b)] returns [a + (b - a) * (k mod 100)/100],
    [randrange(lo, hi)] returns [lo + k mod (hi - lo)] and the index drawn by
    [choice] is [k mod n].  An exhausted tape yields zeros.  It serves to run
    the script on chosen draws. *)
Module Tape.

Definition next (g : list nat) : nat * list nat :=
  match g with
  | [] => (O, [])
  | k :: g' => (k, g')
  end.

Definition fraction (k : nat) : Q := Z.of_nat (k mod 100) # 100.

Definition uniform (a b : Q) (g : list nat) : Q * list nat :=
  (a + (b - a) * fraction (fst (next g)), snd (next g))%Q.

Definition randrange (lo hi : Z) (g : list nat) : Z * list nat :=
  (lo + Z.of_nat (fst (next g)) mod (hi - lo), snd (next g)).

Definition randbelow (n : nat) (g : list nat) : nat * list nat :=
  ((fst (next g) mod n)%nat, snd (next g)).

(** [inet_ntop(AF_INET, bytes)]: dotted decimal. *)
Definition ntop4 (bytes : list Z) : string :=
  String.concat "." (map (fun b => pretty (Z.to_N b)) bytes).

Definition hex (n : Z) : string :=
  HexadecimalString.NilZero.string_of_uint (N.to_hex_uint (Z.to_N n)).

(** Sixteen bytes as eight 16-bit words. *)
Fixpoint words (bytes : list Z) : list Z :=
  match bytes with
  | hi :: lo :: rest => (hi * 256 + lo) :: words rest
  | _ => []
  end.

(** Length of the run of zero words at the head of [ws]. *)
Fixpoint zero_run (ws : list Z) : nat :=
  match ws with
  | 0 :: ws' => S (zero_run ws')
  | _ => O
  end.

(** The first longest run of zero words, as (start, length). *)
Fixpoint best_run (i : nat) (ws : list Z) : nat * nat :=
  match ws with
  | [] => (O, O)
  | _ :: ws' =>
      let here := zero_run ws in
      let later := best_run (S i) ws' in
      if (snd later <=? here)%nat then (i, here) else later
  end.

(** [inet_ntop(AF_INET6, bytes)] as the C library prints it: lower-case
    hexadecimal words, the first longest run of two or more zero words
    replaced by [::], and the two forms with an embedded IPv4 address. *)
Definition ntop6 (bytes : list Z) : string :=
  let ws := words bytes in
  let '(base, len) := best_run 0 ws in
  let colons l := String.concat ":" (map hex l) in
  if (len <? 2)%nat then colons ws
  else if ((base =? 0) && ((len =? 6)
             || ((len =? 5) && (nth 5 ws 0 =? 0xffff)%Z)))%nat then
    (if (len =? 6)%nat then "::" else "::ffff:") +:+ ntop4 (drop 12 bytes)
  else colons (take base ws) +:+ "::" +:+ colons (drop (base + len) ws).

Definition ntop (af : address_family) (bytes : list Z) : string :=
  match af with
  | AF_INET => ntop4 bytes
  | AF_INET6 => ntop6 bytes
  end.

(** The runtime in which [rnd.seed(s)] loads the tape [book s]; its draws
    are within the documented ranges. *)
Definition runtime (book : Z -> list nat) : Runtime (list nat).
Proof.
  refine {| rt_seed := book;
            rt_uniform := uniform;
            rt_randrange := randrange;
            rt_randbelow := randbelow;
            inet_ntop := ntop |}.
  - intros a b g Hab. unfold uniform; simpl.
    assert (Ht : (0 <= fraction (fst (next g)) <= 1)%Q).
    { unfold fraction, Qle; simpl.
      pose proof (Nat.mod_upper_bound (fst (next g)) 100). lia. }
    destruct Ht as [H0 H1].
    set (t := fraction (fst (next g))) in *.
    assert (Hd : (0 <= b - a)%Q)
      by (apply (Qplus_le_r _ _ a); ring_simplify; exact Hab).
    split.
    + rewrite <- (Qplus_0_r a) at 1. apply Qplus_le_r.
      apply Qmult_le_0_compat; assumption.
    + assert (Hm : ((b - a) * t <= (b - a) * 1)%Q).
      { rewrite !(Qmult_comm (b - a)). apply Qmult_le_compat_r; assumption. }
      apply (Qplus_le_r _ _ a) in Hm.
      eapply Qle_trans; [exact Hm|]. ring_simplify. apply Qle_refl.
  - intros lo hi g H. unfold randrange; simpl.
    pose proof (Z.mod_pos_bound (Z.of_nat (fst (next g))) (hi - lo)). lia.
  - intros n g H. unfold randbelow; simpl. apply Nat.mod_upper_bound. lia.
Defined.

End Tape.

(** ** The address synthesizer and the delta-set builder, as relations

    The relations below describe the address synthesizer and the delta-set
    builder as relations between the values involved and the events of the
    calls made.  The script is proved to refine them. *)
Section Design.
Variable ipver : Z.

Definition host_bits : Z := if ipver =? 4 then 24 else 96.

Definition base_network : Z :=
  if ipver =? 4 then 0x0a000000 else 0xfd05aaaa000000000000000000000000.

(** Same network prefix as the base network. *)
Definition in_network (x : Z) : Prop :=
  Z.shiftr x host_bits = Z.shiftr base_network host_bits.

Definition bit_draw (e : event) : Prop := exists u, e = Uniform 0 1 u.

(** A call [mkaddr(prev, d)] returning [x]: one draw per host bit, and
    [x] is [prev] (or the base network) with a vector [m] over the host
    bits XORed in. *)
Inductive synthesized (prev : option Z) (d : Q) (x : Z)
  : list event -> Prop :=
| synth_mask m bits :
    0 <= m < 2 ^ host_bits ->
    Forall bit_draw bits ->
    length bits = Z.to_nat host_bits ->
    x = Z.lxor (default base_network prev) m ->
    synthesized prev d x (bits ++ [Mkaddr prev d x]).

(** A candidate [x] for the delta list: a re-selection from [pool], made
    only when [pool] is not empty and a draw from [0, 1] falls below [p];
    otherwise a synthesized address whose density is a draw from
    [0, modden]. *)
Inductive candidate_of (pool : list Z) (p : Q) (prev : option Z) (x : Z)
  : list event -> Prop :=
| cand_reselected u i :
    pool <> [] -> (u < p)%Q -> pool !! i = Some x ->
    candidate_of pool p prev x [Uniform 0 1 u; Choice (length pool) i]
| cand_fresh_no_pool d evs :
    pool = [] -> (0 <= d <= modden ipver)%Q ->
    synthesized prev d x evs ->
    candidate_of pool p prev x (Uniform 0 (modden ipver) d :: evs)
| cand_fresh u d evs :
    pool <> [] -> ~ (u < p)%Q -> (0 <= d <= modden ipver)%Q ->
    synthesized prev d x evs ->
    candidate_of pool p prev x
      (Uniform 0 1 u :: Uniform 0 (modden ipver) d :: evs).

(** The length test: a first draw from [0, bound), and a second one only
    when the length is not below the first. *)
Inductive length_test (bound len : Z) : bool -> list event -> Prop :=
| test_first r1 :
    0 <= r1 < bound -> len < r1 ->
    length_test bound len true [Randrange 0 bound r1]
| test_second r1 r2 :
    0 <= r1 < bound -> 0 <= r2 < bound -> ~ len < r1 -> len < r2 ->
    length_test bound len true [Randrange 0 bound r1; Randrange 0 bound r2]
| test_stop r1 r2 :
    0 <= r1 < bound -> 0 <= r2 < bound -> ~ len < r1 -> ~ len < r2 ->
    length_test bound len false
      [Randrange 0 bound r1; Randrange 0 bound r2].

(** Building a delta list from [dl] on: candidates are appended while the
    length test holds. *)
Inductive built (bound : Z) (pool : list Z -> list Z) (p : Q)
  : option Z -> list Z -> option Z -> list Z -> list event -> Prop :=
| built_done prev dl t :
    length_test bound (Z.of_nat (length dl)) false t ->
    built bound pool p prev dl prev dl t
| built_more prev dl t x c prev' dl' rest :
    length_test bound (Z.of_nat (length dl)) true t ->
    candidate_of (pool dl) p prev x c ->
    built bound pool p (Some x) (dl ++ [x]) prev' dl' rest ->
    built bound pool p prev dl prev' dl' (t ++ c ++ rest).

(** The five lines printed for an accepted step. *)
Definition step_lines {G} `{RT : Runtime G} (st : globals) : list event :=
  [ Stdout ("-E" +:+ deltype st +:+ addrsout ipver (delta st));
    Stderr ("received command for x -E" +:+ deltype st
            +:+ addrsout ipver (delta st));
    Stdout "?E";
    Stderr "received command for x ?E";
    Stderr ("note: x source setting: -E" +:+ addrsout ipver (sources st)) ].

End Design.

(** ** A relational account of one pass through the main loop *)
Section Passes.
Context {G : Type} `{RT : Runtime G}.
Variables ipver addrmax : Z.

(** Which branch a pass takes: the first pass is an absolute set; later a
    draw below 0.2 selects an absolute set, and otherwise [rnd.choice] on
    [(False, True)] selects an additive (False) or subtractive (True)
    delta. *)
Inductive selected (count : Z) : string -> list event -> Prop :=
| sel_first : count = 0 -> selected count "" []
| sel_absolute u :
    count <> 0 -> (u < 2 # 10)%Q -> selected count "" [Uniform 0 1 u]
| sel_additive u :
    count <> 0 -> ~ (u < 2 # 10)%Q ->
    selected count "+" [Uniform 0 1 u; Choice 2 0]
| sel_subtractive u :
    count <> 0 -> ~ (u < 2 # 10)%Q ->
    selected count "-" [Uniform 0 1 u; Choice 2 1].

Definition subtractive_bound (srcs : list Z) : Z :=
  Z.of_nat (length srcs) + Z.of_nat (length srcs) / 4 + 1.

(** The set of all members of two lists. *)
Definition union_set (srcs dl : list Z) : gset Z := list_to_set (srcs ++ dl).

(** One attempt: the branch selected, the delta list built, and what
    becomes of [sources].  A rejected attempt ([Continue]) leaves
    [sources] as it was. *)
Inductive attempt_of (st : globals)
  : control -> globals -> list event -> Prop :=
| att_absolute st1 sel b :
    selected (o st) "" sel ->
    built ipver addrmax (fun dl => dl) (4 # 10)
      (a st) [] (a st1) (delta st1) b ->
    deltype st1 = "" ->
    sources st1 = sorted (delta st1) ->
    o st1 = o st ->
    attempt_of st Fallthrough st1 (sel ++ b)
| att_subtractive st1 sel b :
    selected (o st) "-" sel ->
    built ipver (subtractive_bound (sources st)) (fun _ => sources st)
      float_0_6 (a st) [] (a st1) (delta st1) b ->
    deltype st1 = "-" ->
    delta st1 <> [] ->
    sources st1 = list_difference (sources st) (delta st1) ->
    o st1 = o st ->
    attempt_of st Fallthrough st1 (sel ++ b)
| att_subtractive_rejected st1 sel b :
    selected (o st) "-" sel ->
    built ipver (subtractive_bound (sources st)) (fun _ => sources st)
      float_0_6 (a st) [] (a st1) (delta st1) b ->
    deltype st1 = "-" ->
    delta st1 = [] ->
    sources st1 = sources st ->
    o st1 = o st ->
    attempt_of st Continue st1 (sel ++ b)
| att_additive st1 sel b :
    selected (o st) "+" sel ->
    built ipver addrmax (fun _ => sources st) (4 # 10)
      (a st) [] (a st1) (delta st1) b ->
    deltype st1 = "+" ->
    delta st1 <> [] ->
    Z.of_nat (size (union_set (sources st) (delta st1))) < addrmax ->
    sources st1 = sorted (elements (union_set (sources st) (delta st1))) ->
    o st1 = o st ->
    attempt_of st Fallthrough st1 (sel ++ b)
| att_additive_rejected st1 sel b :
    selected (o st) "+" sel ->
    built ipver addrmax (fun _ => sources st) (4 # 10)
      (a st) [] (a st1) (delta st1) b ->
    deltype st1 = "+" ->
    delta st1 = [] \/
      addrmax <= Z.of_nat (size (union_set (sources st) (delta st1))) ->
    sources st1 = sources st ->
    o st1 = o st ->
    attempt_of st Continue st1 (sel ++ b).

(** The globals after an accepted attempt has been counted. *)
Definition counted (st1 : globals) : globals :=
  Globals (sources st1) (a st1) (o st1 + 1) (deltype st1) (delta st1).

(** One pass through the loop body: a rejected attempt prints nothing and
    counts nothing; an accepted one prints its five lines and is counted. *)
Inductive pass_of (st : globals) : globals -> list event -> Prop :=
| pass_rejected st1 evs :
    attempt_of st Continue st1 evs ->
    pass_of st st1 evs
| pass_accepted st1 evs :
    attempt_of st Fallthrough st1 evs ->
    pass_of st (counted st1) (evs ++ step_lines ipver st1).

End Passes.

(** ** Invariants of the globals and of the log *)
Section Invariants.
Variables ipver addrmax : Z.

Definition net_opt (x : option Z) : Prop :=
  match x with
  | None => True
  | Some v => in_network ipver v
  end.

(** What holds of every event a run of the script logs. *)
Definition sound_event (e : event) : Prop :=
  match e with
  | Randrange lo hi r => lo <= r < hi
  | Choice n i => (i < n)%nat
  | ChoiceEmpty => False
  | Mkaddr b d x =>
      in_network ipver x /\ (0 <= d <= modden ipver)%Q /\
      exists m, 0 <= m < 2 ^ host_bits ipver /\
                x = Z.lxor (default (base_network ipver) b) m
  | _ => True
  end.

(** Every density handed to [mkaddr] was drawn from [0, modden]. *)
Definition density_drawn (evs : list event) : Prop :=
  forall b d x, Mkaddr b d x ∈ evs -> Uniform 0 (modden ipver) d ∈ evs.

Definition wellformed (evs : list event) : Prop :=
  Forall sound_event evs /\ density_drawn evs.

(** Nothing printed. *)
Definition silent (evs : list event) : Prop :=
  stdout_of evs = [] /\ stderr_of evs = [].

Record invariant (st : globals) : Prop := {
  inv_size : Z.of_nat (length (sources st)) < addrmax;
  inv_sources : Forall (in_network ipver) (sources st);
  inv_delta : Forall (in_network ipver) (delta st);
  inv_a : net_opt (a st);
  inv_o : 0 <= o st
}.

End Invariants.

(** ** The transcript of a run *)
Section Transcript.
Context {G : Type} `{RT : Runtime G}.
Variable ipver : Z.

(** An accepted step: the kind marker, the delta list, and the source list
    after the step. *)
Record step := Step {
  step_kind : string;
  step_delta : list Z;
  step_sources : list Z
}.

Definition step_of (st : globals) : step :=
  Step (deltype st) (delta st) (sources st).

(** The two lines of a step on the primary stream. *)
Definition primary_lines (s : step) : list string :=
  [ "-E" +:+ step_kind s +:+ addrsout ipver (step_delta s); "?E" ].

(** The three lines of a step on the oracle stream. *)
Definition oracle_lines (s : step) : list string :=
  [ "received command for x -E" +:+ step_kind s
      +:+ addrsout ipver (step_delta s);
    "received command for x ?E";
    "note: x source setting: -E" +:+ addrsout ipver (step_sources s) ].

(** The events of a run printed exactly the lines of [steps]. *)
Definition printed (steps : list step) (evs : list event) : Prop :=
  stdout_of evs = flat_map primary_lines steps /\
  stderr_of evs = flat_map oracle_lines steps.

End Transcript.

(** Startup parameters the script accepts. *)
Definition valid_params (ipver addrmax numops : Z) : Prop :=
  (ipver = 4 \/ ipver = 6) /\ 1 <= addrmax /\ 1 <= numops.

(** What a run has done when the script body returns: the transcript so
    far while the loop is running, the whole transcript with the
    termination pair once it has exited. *)
Definition outcome_of {G} `{RT : Runtime G} (ipver addrmax numops : Z)
    (r : status * globals) (evs : list event) : Prop :=
  invariant ipver addrmax r.2 /\ wellformed ipver evs /\
  exists steps,
    o r.2 = Z.of_nat (length steps) /\
    Forall (fun s => kind_marker (step_kind s)) steps /\
    match r.1 with
    | Running => o r.2 < numops /\ printed ipver steps evs
    | Exited code =>
        code = 0 /\ o r.2 = numops /\
        stdout_of evs = flat_map (primary_lines ipver) steps ++ [".x"] /\
        stderr_of evs = flat_map (oracle_lines ipver) steps
                          ++ ["received command for x .x"] /\
        exists before,
          evs = before ++ [Stdout ".x"; Stderr "received command for x .x"]
    end.

(** ** Reasoning about computations

    [does m Q]: from any world, [m] returns normally some [x], having
    appended to the log a list of events [evs] with [Q x evs]. *)
Definition does {G A} (m : M G A) (Q : A -> list event -> Prop) : Prop :=
  forall w, exists x g' evs,
    m w = (Ok x, World g' (log w ++ evs)) /\ Q x evs.

(** ** Scripted runs *)

(** Draws for a run of three accepted steps with [ipver = 4],
    [addrmax = 4], [numops = 3]: an absolute set whose second member
    re-selects the first, an additive delta with one fresh address, and a
    subtractive delta that removes it again. *)
Definition demo_tape : list nat :=
  (* pass 1, absolute: test; density 0.1, bits 0 and 1; test;
     re-selection of item 0; test fails twice *)
  ([2; 50; 0; 0] ++ repeat 50 22 ++ [2; 10; 0; 0; 0]
  (* pass 2, additive: not absolute, choice False; test; no re-selection,
     density 0.05, bit 2; test fails twice *)
  ++ [50; 0; 1; 90; 25; 50; 50; 0] ++ repeat 50 21 ++ [0; 0]
  (* pass 3, subtractive: not absolute, choice True; test; re-selection of
     item 1; test fails twice *)
  ++ [50; 1; 1; 10; 1; 0; 0])%nat.

Definition demo_runtime : Runtime (list nat) :=
  Tape.runtime (fun _ => demo_tape).

Definition demo_run (n : nat) : result (status * globals) * world (list nat) :=
  run (RT := demo_runtime) n 0 4 4 3.

(** The globals of a computation that returned. *)
Definition globals_of {G A} (r : result (A * globals) * world G) : globals :=
  match r.1 with
  | Ok x => x.2
  | _ => initial_globals
  end.

(** The globals and the world after [n] passes of the scripted run, and
    the attempt made next. *)
Definition demo_globals (n : nat) : globals := globals_of (demo_run n).

Definition demo_world (n : nat) : world (list nat) := (demo_run n).2.

Definition demo_attempt (n : nat)
    : result (control * globals) * world (list nat) :=
  choose_and_build (RT := demo_runtime) 4 4 (demo_globals n) (demo_world n).

(** The three commands the scripted run prints, as kind marker and delta
    list. *)
Definition demo_commands : list (string * list Z) :=
  [ ("", [0x0a000003; 0x0a000003]); ("+", [0x0a000007]);
    ("-", [0x0a000007]) ].

(** Draws for a run with [sources] empty after the first pass (an absolute
    set with an empty delta list), followed by a subtractive attempt. *)
Definition empty_tape : list nat := [0; 0; 50; 1; 0; 0]%nat.

Definition empty_runtime : Runtime (list nat) :=
  Tape.runtime (fun _ => empty_tape).

Definition empty_run (n : nat) : result (status * globals) * world (list nat) :=
  run (RT := empty_runtime) n 0 4 4 3.

(** The attempt made after the first pass of that run. *)
Definition empty_attempt : result (control * globals) * world (list nat) :=
  choose_and_build (RT := empty_runtime) 4 4
    (globals_of (empty_run 1)) (empty_run 1).2.

(** ** Replaying the command stream

    The documented effect of a command on the source list: an absolute set
    replaces it with the members of the delta list, without duplicates and
    in increasing order; an additive delta makes it the members of both
    lists, without duplicates and in increasing order; a subtractive delta
    removes the members of the delta list. *)
Definition apply_command (srcs : list Z) (cmd : string * list Z) : list Z :=
  if String.eqb cmd.1 "" then sorted (elements (union_set [] cmd.2))
  else if String.eqb cmd.1 "+" then sorted (elements (union_set srcs cmd.2))
  else list_difference srcs cmd.2.

(** The source list after each command, starting from [srcs]. *)
Fixpoint replay (srcs : list Z) (cmds : list (string * list Z))
    : list (list Z) :=
  match cmds with
  | [] => []
  | cmd :: rest =>
      apply_command srcs cmd :: replay (apply_command srcs cmd) rest
  end.

(** ** The main loop as a sequence of passes *)
Section PassSequences.
Context {G : Type} `{RT : Runtime G}.
Variables ipver addrmax numops : Z.

(** [passes_of k st steps st' evs]: [k] passes through the loop body, each
    entered with [o < numops], lead from the globals [st] to [st'] with
    the events [evs]; [steps] are the accepted steps among them, in
    order. *)
Inductive passes_of
  : nat -> globals -> list step -> globals -> list event -> Prop :=
| passes_none st : passes_of O st [] st []
| passes_rejected k st st1 e1 steps st' e2 :
    o st < numops ->
    attempt_of ipver addrmax st Continue st1 e1 ->
    passes_of k st1 steps st' e2 ->
    passes_of (S k) st steps st' (e1 ++ e2)
| passes_accepted k st st1 e1 steps st' e2 :
    o st < numops ->
    attempt_of ipver addrmax st Fallthrough st1 e1 ->
    passes_of k (counted st1) steps st' e2 ->
    passes_of (S k) st (step_of st1 :: steps) st'
      ((e1 ++ step_lines ipver st1) ++ e2).

End PassSequences.

(** The command a step printed: its kind marker and its delta list. *)
Definition command_of (s : step) : string * list Z :=
  (step_kind s, step_delta s).

(** The members of a list, without duplicates and in increasing order. *)
Definition canonical (l : list Z) : list Z :=
  sorted (elements (list_to_set l : gset Z)).

(** The list [parts] that [addrout(a)] hands to [bytes]. *)
Definition addr_bytes (ipver a : Z) : list Z :=
  if ipver =? 4 then
    map (fun i => Z.land (Z.shiftr a i) 255) [24; 16; 8; 0]
  else
    map (fun i => Z.land (Z.shiftr a i) 255)
      [120; 112; 104; 96; 88; 80; 72; 64; 56; 48; 40; 32; 24; 16; 8; 0].

(** The width in bits of an address of the IP version. *)
Definition addr_width (ipver : Z) : Z := if ipver =? 4 then 32 else 128.

(** The line that ends each stream once the script has exited. *)
Definition closing_stdout (s : status) : list string :=
  match s with
  | Running => []
  | Exited _ => [".x"]
  end.

Definition closing_stderr (s : status) : list string :=
  match s with
  | Running => []
  | Exited _ => ["received command for x .x"]
  end.

(** Draws for a run like the scripted run above, but whose absolute set
    has the single member 10.0.0.3. *)
Definition plain_tape : list nat :=
  ([2; 50; 0; 0] ++ repeat 50 22 ++ [0; 0]
   ++ [50; 0; 1; 90; 25; 50; 50; 0] ++ repeat 50 21 ++ [0; 0]
   ++ [50; 1; 1; 10; 1; 0; 0])%nat.

Definition plain_runtime : Runtime (list nat) :=
  Tape.runtime (fun _ => plain_tape).

Definition plain_run (n : nat) : result (status * globals) * world (list nat) :=
  run (RT := plain_runtime) n 0 4 4 3.

(** The attempt made after [n] passes of that run. *)
Definition plain_attempt (n : nat)
    : result (control * globals) * world (list nat) :=
  choose_and_build (RT := plain_runtime) 4 4
    (globals_of (plain_run n)) (plain_run n).2.

(** Draws for a run with [addrmax = 1]: three absolute sets, the second
    after a rejected additive and a rejected subtractive attempt. *)
Definition narrow_tape : list nat :=
  [0; 0; 50; 0; 0; 0; 50; 1; 0; 0; 10; 0; 0; 10; 0; 0]%nat.

Definition narrow_runtime : Runtime (list nat) :=
  Tape.runtime (fun _ => narrow_tape).

Definition narrow_run (n : nat) : result (status * globals) * world (list nat) :=
  run (RT := narrow_runtime) n 0 4 1 3.

(** * The address list generator [testing/addrlist.py] *)

Module Addrlist.

(** The text appended for index [i]. *)
Definition address (ipv i : Z) : string :=
  if ipv =? 4 then
    "10.2." +:+ pretty (i mod 251 + 1) +:+ "." +:+ pretty (i mod 241 + 4)
  else
    "fdfd:fdfd::" +:+ Tape.hex (i mod 65521 + 1)
    +:+ ":" +:+ Tape.hex (i mod 65519 + 4).

(** The list [addrs] once the loop over [range(numaddrs)] has ended. *)
Definition addrs (ipv numaddrs : Z) : list string :=
  map (address ipv) (seqZ 0 numaddrs).

(** The line the script prints. *)
Definition output (ipv numaddrs : Z) : string :=
  String.concat "," (addrs ipv numaddrs).

(** The number of indices after which the addresses repeat. *)
Definition period (ipv : Z) : Z :=
  if ipv =? 4 then 251 * 241 else 65521 * 65519.

End Addrlist.

(** A character that occurs nowhere in a string. *)
Fixpoint char_free (c : Ascii.ascii) (s : string) : Prop :=
  match s with
  | EmptyString => True
  | String a s' => a <> c /\ char_free c s'
  end.

(** * The report checker [testing/namerunner_parse.py] *)

Module Namerunner.

(** The double quote character. *)
Definition dquote : ascii := "034"%char.

(** The line feed character. *)
Definition newline : ascii := "010"%char.

(** [s] without its prefix [p], if it has that prefix. *)
Fixpoint strip_prefix (p s : string) : option string :=
  match p, s with
  | EmptyString, _ => Some s
  | String a p', String b s' =>
      if Ascii.eqb a b then strip_prefix p' s' else None
  | String _ _, EmptyString => None
  end.

(** The text after the leftmost occurrence of [p] in [s]. *)
Fixpoint after_first (p s : string) : option string :=
  match strip_prefix p s with
  | Some r => Some r
  | None =>
      match s with
      | EmptyString => None
      | String _ s' => after_first p s'
      end
  end.

(** The longest prefix of [s] whose characters satisfy [f], and the rest. *)
Fixpoint span (f : ascii -> bool) (s : string) : string * string :=
  match s with
  | EmptyString => (EmptyString, EmptyString)
  | String a s' =>
      if f a then (String a (span f s').1, (span f s').2)
      else (EmptyString, s)
  end.

(** The text before the first double quote of [s]. *)
Fixpoint quoted (s : string) : option string :=
  match s with
  | EmptyString => None
  | String a s' =>
      if Ascii.eqb a dquote then Some EmptyString
      else option_map (String a) (quoted s')
  end.

(** The text that introduces the name in an expectation line: a space,
    [name:], a space and a double quote. *)
Definition name_intro : string := " name: " +:+ String dquote EmptyString.

(** What the tail of [re_expect] captures in [s]: any text, the
    introduction, the name up to the closing double quote.  The greedy
    [.*] makes it the name of the rightmost introduction that is followed
    by a closing quote. *)
Fixpoint last_name (s : string) : option string :=
  match s with
  | EmptyString => None
  | String a s' =>
      match last_name s' with
      | Some g => Some g
      | None =>
          match strip_prefix name_intro s with
          | Some t => quoted t
          | None => None
          end
      end
  end.

(** [re_expect.match(line)]: the two groups. *)
Definition re_expect (line : string) : option (string * string) :=
  match strip_prefix "# expected direction: " line with
  | Some r =>
      let g := span (fun c => Ascii.eqb c "-" || Ascii.eqb c "0"
                              || Ascii.eqb c "1")%char r in
      match last_name g.2 with
      | Some name => Some (g.1, name)
      | None => None
      end
  | None => None
  end.

(** [re_usage.match(line)]: the group. *)
Definition re_usage (line : string) : option string :=
  match strip_prefix "USAGE: " line with
  | Some r =>
      let g := span (fun c => negb (Ascii.eqb c " ")) r in
      match strip_prefix " options..." g.2 with
      | Some _ => Some g.1
      | None => None
      end
  | None => None
  end.

(** Whether [a] occurs in [s] with [b] somewhere after it. *)
Definition in_order (a b s : string) : bool :=
  match after_first a s with
  | Some r => bool_decide (is_Some (after_first b r))
  | None => false
  end.

Definition re_rxind (line : string) : bool := in_order "-m" "multi" line.

Definition re_txind (line : string) : bool := in_order "-j" "join" line.

Definition re_abnorm (line : string) : bool :=
  match strip_prefix "#" line with
  | Some r => in_order "exit" "abnormal" r
  | None => false
  end.

Definition re_exit (line : string) : bool :=
  bool_decide (is_Some (strip_prefix "# exit" line)).

(** The value of a text of the digits [0] and [1], read in base ten. *)
Fixpoint digits_value (acc : Z) (s : string) : option Z :=
  match s with
  | EmptyString => Some acc
  | String c s' =>
      if Ascii.eqb c "0" then digits_value (10 * acc) s'
      else if Ascii.eqb c "1" then digits_value (10 * acc + 1) s'
      else None
  end.

(** [int(s)] for a text of the characters [-], [0] and [1], the only ones
    the first group of [re_expect] admits: an optional sign before one
    or more decimal digits, and no more digits than the interpreter
    converts; [None] stands for [ValueError].

    [max_str_digits] is what [sys.get_int_max_str_digits()] returns: the
    most digits a text may have for [int] to convert it, 4300 unless the
    interpreter is set up otherwise, and 0 for no limit, which is also how
    an interpreter older than the limit behaves.  The sign is not counted;
    leading zeros are. *)
Definition int_of (max_str_digits : Z) (s : string) : option Z :=
  match s with
  | EmptyString => None
  | String c s' =>
      let digits := if Ascii.eqb c "-" then s' else s in
      if (0 <? max_str_digits)
         && (max_str_digits <? Z.of_nat (String.length digits))
      then None
      else if Ascii.eqb c "-" then
        match s' with
        | EmptyString => None
        | String _ _ => option_map Z.opp (digits_value 0 s')
        end
      else digits_value 0 s
  end.

(** The lines of the text read from standard input, split at each line
    feed. *)
Fixpoint split_lines (s : string) : list string :=
  match s with
  | EmptyString => [EmptyString]
  | String c s' =>
      if Ascii.eqb c newline then EmptyString :: split_lines s'
      else
        match split_lines s' with
        | l :: ls => String c l :: ls
        | [] => [String c EmptyString]
        end
  end.

(** The variables of the script. *)
Record state := State {
  st_dir : Z;
  st_name : string;
  st_rx : bool;
  st_tx : bool;
  cnt_ok : Z;
  cnt_prob : Z
}.

Definition initial : state :=
  {| st_dir := 0; st_name := "?"; st_rx := false; st_tx := false;
     cnt_ok := 0; cnt_prob := 0 |}.

Definition problem (st : state) : state :=
  {| st_dir := st_dir st; st_name := st_name st; st_rx := st_rx st;
     st_tx := st_tx st; cnt_ok := cnt_ok st; cnt_prob := cnt_prob st + 1 |}.

(** The complaint an exit line draws, if any. *)
Definition exit_complaint (st : state) : option string :=
  if (st_dir st <=? 0) && negb (st_rx st) then
    Some "!!! doesn't seem to do receive"
  else if (st_dir st >=? 0) && negb (st_tx st) then
    Some "!!! doesn't seem to do send"
  else if (st_dir st >? 0) && st_rx st then
    Some "!!! seems to do receive"
  else if (st_dir st <? 0) && st_tx st then
    Some "!!! seems to do send"
  else None.

(** How the script ends: after the two summary lines, or with the
    [ValueError] of [int]; either way with the lines printed so far. *)
Inductive outcome :=
| Finished (out : list string)
| ValueError (out : list string).

Section Loop.

(** [repr] on texts. *)
Variable repr : string -> string.

(** The limit of the interpreter on the digits that [int] converts. *)
Variable max_str_digits : Z.

(** The comment echo at the head of the loop body. *)
Definition echo (line : string) : list string :=
  match line with
  | String c _ => if Ascii.eqb c "#" then [line] else []
  | EmptyString => []
  end.

(** One iteration of the loop: the state after it and the lines printed,
    or [None] when [int] raises. *)
Definition body (line : string) (st : state)
    : option (state * list string) :=
  match re_expect line with
  | Some (g1, g2) =>
      match int_of max_str_digits g1 with
      | None => None
      | Some d =>
          Some ({| st_dir := d;
                   st_name := if String.eqb g2 "!" then "oligocast" else g2;
                   st_rx := false; st_tx := false;
                   cnt_ok := cnt_ok st; cnt_prob := cnt_prob st |},
                echo line)
      end
  | None =>
      match re_usage line with
      | Some name =>
          if String.eqb name (st_name st) then
            Some (st, echo line ++ [line])
          else
            Some (problem st,
                  echo line ++
                  [line;
                   "!!! problem with name: exp " +:+ repr (st_name st)
                   +:+ " got " +:+ repr name])
      | None =>
          if re_rxind line then
            Some ({| st_dir := st_dir st; st_name := st_name st;
                     st_rx := true; st_tx := st_tx st;
                     cnt_ok := cnt_ok st; cnt_prob := cnt_prob st |},
                  echo line ++ [line])
          else if re_txind line then
            Some ({| st_dir := st_dir st; st_name := st_name st;
                     st_rx := st_rx st; st_tx := true;
                     cnt_ok := cnt_ok st; cnt_prob := cnt_prob st |},
                  echo line ++ [line])
          else if re_abnorm line then
            Some (problem st, echo line ++ ["!!! problem with exit status"])
          else if re_exit line then
            match exit_complaint st with
            | Some text => Some (problem st, echo line ++ [text])
            | None =>
                Some ({| st_dir := st_dir st; st_name := st_name st;
                         st_rx := st_rx st; st_tx := st_tx st;
                         cnt_ok := cnt_ok st + 1; cnt_prob := cnt_prob st |},
                      echo line)
            end
          else Some (st, echo line)
      end
  end.

(** The loop over [lines]. *)
Fixpoint loop (lines : list string) (st : state) (out : list string)
    : state * list string + list string :=
  match lines with
  | [] => inl (st, out)
  | line :: rest =>
      match body line st with
      | Some (st', printed) => loop rest st' (out ++ printed)
      | None => inr (out ++ echo line)
      end
  end.

(** The script on the text read from standard input. *)
Definition main (input : string) : outcome :=
  match loop (split_lines input) initial [] with
  | inl (st, out) =>
      Finished (out ++ [ "# OK runs: " +:+ pretty (cnt_ok st);
                         "# problems: " +:+ pretty (cnt_prob st) ])
  | inr out => ValueError out
  end.

End Loop.

(** Whether a printed line is a complaint. *)
Definition complaint (l : string) : bool :=
  match strip_prefix "!!!" l with
  | Some _ => true
  | None => false
  end.

(** [repr] on a text without quotes, backslashes or control characters. *)
Definition repr_plain (s : string) : string := "'" +:+ s +:+ "'".

(** A report of two runs: one as expected, one under the wrong name and
    without the send indicator. *)
Definition sample_report : string :=
  String.concat (String newline EmptyString)
    [ "# expected direction: 0 name: " +:+ String dquote "!"
      +:+ String dquote EmptyString;
      "USAGE: oligocast options...";
      "    -m grp    multicast group";
      "    -j        join the group";
      "# exit status 0";
      "# expected direction: 1 name: " +:+ String dquote "oligosend"
      +:+ String dquote EmptyString;
      "USAGE: oligocast options...";
      "# exit status 0" ].

(** What the script prints on that report. *)
Definition sample_output : list string :=
  match main repr_plain 4300 sample_report with
  | Finished out => out
  | ValueError out => out
  end.

End Namerunner.

(** * The command feeder [cmdcat.py] *)

Module Cmdcat.

(** What the script has written, complained about and slept so far. *)
Record world := World {
  stdout : string;
  stderr : list string;
  slept : list Q
}.

(** [s] cut at the first occurrence of [c]: what [s[:s.find(c)]] and
    [s[s.find(c)+1:]] are when [s.find(c) >= 0]. *)
Fixpoint cut (c : ascii) (s : string) : option (string * string) :=
  match s with
  | EmptyString => None
  | String a s' =>
      if Ascii.eqb a c then Some (EmptyString, s')
      else
        match cut c s' with
        | Some (before, after) => Some (String a before, after)
        | None => None
        end
  end.

(** [n] copies of [s], one after the other. *)
Fixpoint copies (n : nat) (s : string) : string :=
  match n with
  | O => EmptyString
  | S n' => s +:+ copies n' s
  end.

(** How the [try] block ends for one line. *)
Inductive result :=
| Done (w : world)
| Stop
| Failed (message : string).

(** How the script ends: by [exit()] on an exit line, by [exit()] after too
    many failures, or with the [EOFError] of [input()]. *)
Inductive ending := Exited | GaveUp | EndOfInput.

(** What the script asks of the interpreter and the file system. *)
Class Host := {
  (** [float] and then [sleep] on a text: the seconds slept, or the text
      of the exception raised. *)
  delay_of : string -> string + Q;
  (** [int] on a text: the number, or the text of the exception raised. *)
  int_of : string -> string + Z;
  (** The text of the file of a name, or the text of the exception raised
      by opening or reading it; the same each time the file is read.  A
      read that fails is taken to fail before any of the file is written:
      what the script has already written of a file that fails part-way,
      or on a later copy, is not modelled. *)
  file_text : string -> string + string
}.

Section Script.

Context `{HOST : Host}.

(** The count before the mark of a read or echo command. *)
Definition count_of (before : string) : string + Z :=
  match before with
  | EmptyString => inr 1
  | String _ _ => int_of before
  end.

(** The body of the [try] block for [line]. *)
Definition command (line : string) (w : world) : result :=
  match line with
  | EmptyString => Done w
  | String c rest =>
      if Ascii.eqb c "#" then Done w
      else if Ascii.eqb c "_" then
        match delay_of rest with
        | inl message => Failed message
        | inr d =>
            Done {| stdout := stdout w; stderr := stderr w;
                    slept := slept w ++ [d] |}
        end
      else if String.eqb line "exit" then Stop
      else
        match cut "<" line with
        | Some (before, name) =>
            match count_of before with
            | inl message => Failed message
            | inr count =>
                if 0 <? count then
                  match file_text name with
                  | inl message => Failed message
                  | inr text =>
                      Done {| stdout := stdout w
                                        +:+ copies (Z.to_nat count) text;
                              stderr := stderr w; slept := slept w |}
                  end
                else Done w
            end
        | None =>
            match cut ">" line with
            | Some (before, text) =>
                match count_of before with
                | inl message => Failed message
                | inr count =>
                    Done {| stdout := stdout w
                                      +:+ copies (Z.to_nat count)
                                            (text +:+ String "010" "");
                            stderr := stderr w; slept := slept w |}
                end
            | None => Failed "Invalid command input to cmdcat.py"
            end
        end
  end.

Definition complain (message : string) (w : world) : world :=
  {| stdout := stdout w; stderr := stderr w ++ [message]; slept := slept w |}.

(** The script on the lines that [input()] returns one by one, from the
    value [fails] of the failure counter. *)
Fixpoint run (lines : list string) (fails : Z) (w : world) : ending * world :=
  match lines with
  | [] => (EndOfInput, w)
  | line :: rest =>
      match command line w with
      | Done w' => run rest 0 w'
      | Stop => (Exited, w)
      | Failed message =>
          if fails + 1 >? 100 then
            (GaveUp, complain "Too many failures, terminating"
                       (complain message w))
          else run rest (fails + 1) (complain message w)
      end
  end.

(** A line whose command raises an exception. *)
Definition failing (line : string) : Prop :=
  forall w, exists message, command line w = Failed message.

(** Whether the script gives up on [lines] when the failure counter is
    [fails]: either the next [101 - fails] lines all fail, or 101 lines in
    a row fail later, with no exit line before them. *)
Definition gives_up (fails : Z) (lines : list string) : Prop :=
  (exists bad post,
     lines = bad ++ post /\ Z.of_nat (length bad) = 101 - fails /\
     Forall failing bad) \/
  (exists pre bad post,
     lines = pre ++ bad ++ post /\ length bad = 101%nat /\
     Forall failing bad /\ Forall (fun l => l <> "exit") pre).

End Script.

End Cmdcat.

(** Splits a [Forall] over an explicit list into one goal per member. *)
Ltac forall_list :=
  repeat first [apply Forall_nil_2 | apply Forall_cons_2].

Lemma Qltb_lt (x y : Q) : Qltb x y = true <-> (x < y)%Q.
Proof. unfold Qltb, Qlt. apply Z.ltb_lt. Qed.

Lemma Qltb_nlt (x y : Q) : Qltb x y = false <-> ~ (x < y)%Q.
Proof.
  rewrite <- Qltb_lt. destruct (Qltb x y); split; congruence.
Qed.

Section Hoare.
Context {G : Type} `{RT : Runtime G}.

Lemma does_ret {A} (x : A) (Q : A -> list event -> Prop) :
  Q x [] -> does (G:=G) (ret x) Q.
Proof.
  intros HQ w. exists x, (gen w), []. rewrite app_nil_r.
  destruct w; simpl; auto.
Qed.

Lemma does_bind {A B} (m : M G A) (k : A -> M G B) Q1
    (Q : B -> list event -> Prop) :
  does m Q1 ->
  (forall x e1, Q1 x e1 -> does (k x) (fun y e2 => Q y (e1 ++ e2))) ->
  does (bind m k) Q.
Proof.
  intros Hm Hk w.
  destruct (Hm w) as (x & g1 & e1 & Em & H1).
  destruct (Hk x e1 H1 (World g1 (log w ++ e1))) as (y & g2 & e2 & Ek & H2).
  exists y, g2, (e1 ++ e2). unfold bind. rewrite Em, Ek. simpl.
  rewrite app_assoc. auto.
Qed.

Lemma does_mono {A} (m : M G A) (Q Q' : A -> list event -> Prop) :
  does m Q -> (forall x e, Q x e -> Q' x e) -> does m Q'.
Proof.
  intros Hm HQ w. destruct (Hm w) as (x & g' & e & Em & H).
  exists x, g', e. auto.
Qed.

(** A computation that [does] something returns it: the equation of a
    run determines the value and the events. *)
Lemma does_run {A} (m : M G A) Q w x w' :
  does m Q -> m w = (Ok x, w') ->
  exists evs, log w' = log w ++ evs /\ Q x evs.
Proof.
  intros Hm E. destruct (Hm w) as (x1 & g1 & e1 & Em & H).
  rewrite E in Em. inversion Em; subst. exists e1. auto.
Qed.

Lemma does_emit_event (e : event) :
  does (G:=G) (emit_event e) (fun _ evs => evs = [e]).
Proof. intros w. exists tt, (gen w), [e]. auto. Qed.

Lemma does_uniform (a b : Q) :
  does (rnd_uniform a b)
    (fun r evs => evs = [Uniform a b r] /\ ((a <= b)%Q -> (a <= r <= b)%Q)).
Proof.
  intros w. unfold rnd_uniform.
  pose proof (rt_uniform_range a b (gen w)) as Hr.
  destruct (rt_uniform a b (gen w)) as [r g]. simpl in Hr.
  exists r, g, [Uniform a b r]. auto.
Qed.

Lemma does_randrange (lo hi : Z) :
  lo < hi ->
  does (rnd_randrange lo hi)
    (fun r evs => evs = [Randrange lo hi r] /\ lo <= r < hi).
Proof.
  intros Hlt w. unfold rnd_randrange.
  destruct (Z.ltb_spec lo hi); [|lia].
  pose proof (rt_randrange_range lo hi (gen w) Hlt) as Hr.
  destruct (rt_randrange lo hi (gen w)) as [r g]. simpl in Hr.
  exists r, g, [Randrange lo hi r]. auto.
Qed.

Lemma does_choice {A} (xs : list A) :
  xs <> [] ->
  does (rnd_choice xs)
    (fun x evs => exists i, evs = [Choice (length xs) i] /\ xs !! i = Some x).
Proof.
  intros Hne w. unfold rnd_choice. destruct xs as [|x0 xs]; [done|].
  pose proof (rt_randbelow_range (length (x0 :: xs)) (gen w)) as Hr.
  destruct (rt_randbelow (length (x0 :: xs)) (gen w)) as [i g].
  simpl fst in Hr.
  exists (nth i (x0 :: xs) x0), g, [Choice (length (x0 :: xs)) i].
  split; [done|]. exists i. split; [done|].
  destruct (nth_lookup_or_length (x0 :: xs) i x0) as [E|E]; [exact E|].
  assert (i < length (x0 :: xs))%nat by (apply Hr; simpl; lia). lia.
Qed.

End Hoare.

(** ** The script refines the relations *)
Section Refinement.
Context {G : Type} `{RT : Runtime G}.
Variable ipver : Z.

Lemma mkbits_loop_does (n : nat) : forall (i : Z) (d : Q) (b : Z),
  does (mkbits_loop n i d b)
    (fun r evs =>
       Forall bit_draw evs /\ length evs = n /\
       (0 <= i -> 0 <= b < 2 ^ i -> 0 <= r < 2 ^ (i + Z.of_nat n))).
Proof.
  induction n as [|n IH]; intros i d b; simpl.
  - apply does_ret. split; [done|]. split; [done|].
    intros _ Hb. by rewrite Z.add_0_r.
  - eapply does_bind; [apply does_uniform|].
    intros u e1 [-> _]. eapply does_mono; [apply IH|].
    intros r e2 (Hd & Hl & Hr). split; [|split].
    + constructor; [by exists u|done].
    + simpl. by rewrite Hl.
    + intros Hi Hb.
      replace (i + Z.of_nat (S n)) with (i + 1 + Z.of_nat n) by lia.
      apply Hr; [lia|].
      rewrite Z.shiftl_1_l, Z.pow_add_r, Z.pow_1_r by lia.
      destruct (Qltb u d); lia.
Qed.

Lemma mkaddr_does (prev : option Z) (d : Q) :
  does (mkaddr ipver prev d) (synthesized ipver prev d).
Proof.
  unfold mkaddr.
  assert (Hbits : forall l : nat, Z.of_nat l = host_bits ipver ->
    forall b', b' = default (base_network ipver) prev ->
    does (m <- mkbits l d ;; ret (Z.lxor b' m))
      (fun x evs => exists m, 0 <= m < 2 ^ host_bits ipver /\
         Forall bit_draw evs /\ length evs = Z.to_nat (host_bits ipver) /\
         x = Z.lxor (default (base_network ipver) prev) m)).
  { intros l Hl b' ->. eapply does_bind; [apply mkbits_loop_does|].
    intros m e1 (Hd & Hlen & Hr). apply does_ret. exists m.
    rewrite app_nil_r.
    assert (0 <= m < 2 ^ (0 + Z.of_nat l)) as Hm by (apply Hr; simpl; lia).
    rewrite Z.add_0_l, Hl in Hm.
    repeat split; auto; lia. }
  eapply does_bind with (Q1 := fun x evs =>
    exists m, 0 <= m < 2 ^ host_bits ipver /\
      Forall bit_draw evs /\ length evs = Z.to_nat (host_bits ipver) /\
      x = Z.lxor (default (base_network ipver) prev) m).
  - unfold host_bits, base_network in *. destruct (ipver =? 4).
    + exact (Hbits 24%nat eq_refl _ eq_refl).
    + exact (Hbits 96%nat eq_refl _ eq_refl).
  - intros x e1 (m & Hm & Hd & Hlen & ->).
    eapply does_bind; [apply does_emit_event|].
    intros _ e2 ->. apply does_ret. rewrite app_nil_r.
    by apply synth_mask with (m := m).
Qed.

Lemma modden_nonneg : (0 <= modden ipver)%Q.
Proof. unfold modden. destruct (ipver =? 4); unfold Qle; simpl; lia. Qed.

Lemma candidate_does (pool : list Z) (p : Q) (prev : option Z) :
  does (candidate ipver pool p prev) (candidate_of ipver pool p prev).
Proof.
  unfold candidate.
  destruct pool as [|x0 pool'] eqn:Epool.
  - eapply does_bind with (Q1 := fun b evs => b = false /\ evs = []);
      [by apply does_ret|].
    intros b e1 [-> ->]. simpl.
    eapply does_bind; [apply does_uniform|].
    intros d e2 [-> Hd]. eapply does_mono; [apply mkaddr_does|].
    intros x e3 Hs. simpl.
    apply cand_fresh_no_pool; auto. apply Hd, modden_nonneg.
  - rewrite <- Epool.
    assert (Hne : pool <> []) by (subst; done).
    eapply does_bind with (Q1 := fun b evs =>
      exists u, evs = [Uniform 0 1 u] /\ b = Qltb u p).
    { eapply does_bind; [apply does_uniform|].
      intros u e1 [-> _]. apply does_ret. simpl. eauto. }
    intros b e1 (u & -> & ->). destruct (Qltb u p) eqn:Eu.
    + eapply does_mono; [apply (does_choice pool Hne)|].
      intros x e2 (i & -> & Hi). simpl.
      apply cand_reselected; auto. by apply Qltb_lt.
    + eapply does_bind; [apply does_uniform|].
      intros d e2 [-> Hd]. eapply does_mono; [apply mkaddr_does|].
      intros x e3 Hs. simpl.
      apply cand_fresh; auto.
      * by apply Qltb_nlt.
      * apply Hd, modden_nonneg.
Qed.

Lemma loop_test_does (bound : Z) (dl : list Z) :
  0 < bound ->
  does (loop_test bound dl) (length_test bound (Z.of_nat (length dl))).
Proof.
  intros Hb. unfold loop_test, lencrit.
  eapply does_bind; [by apply does_randrange|].
  intros r1 e1 [-> Hr1].
  destruct (Z.ltb_spec (Z.of_nat (length dl)) r1).
  - apply does_ret. simpl. by apply test_first.
  - eapply does_bind; [by apply does_randrange|].
    intros r2 e2 [-> Hr2]. apply does_ret. simpl.
    destruct (Z.ltb_spec (Z.of_nat (length dl)) r2).
    + apply test_second; auto; lia.
    + apply test_stop; auto; lia.
Qed.

(** The loop never runs out of the fuel the branches give it. *)
Lemma delta_loop_does (bound : Z) (pool : list Z -> list Z) (p : Q)
    (fuel : nat) : forall (prev : option Z) (dl : list Z),
  0 < bound -> (1 <= fuel)%nat ->
  bound <= Z.of_nat (length dl) + Z.of_nat fuel ->
  does (delta_loop ipver fuel bound pool p prev dl)
    (fun r evs => built ipver bound pool p prev dl r.1 r.2 evs).
Proof.
  induction fuel as [|fuel IH]; intros prev dl Hb Hf Hfuel; [lia|].
  simpl. eapply does_bind; [by apply loop_test_does|].
  intros go e1 Ht. destruct go.
  - eapply does_bind; [apply candidate_does|].
    intros x e2 Hc.
    assert (Hlen : Z.of_nat (length dl) + 1 < bound)
      by (inversion Ht; lia).
    eapply does_mono.
    + apply IH; [done| |]; rewrite ?length_app; simpl; lia.
    + intros r e3 Hb3. simpl. by eapply built_more.
  - apply does_ret. rewrite app_nil_r. by apply built_done.
Qed.

End Refinement.

(** The loops that fill a Python set compute a union. *)
Lemma add_all_union (l : list Z) : forall s : gset Z,
  add_all s l = s ∪ list_to_set l.
Proof.
  unfold add_all. induction l as [|x l IH]; intros s; simpl.
  - by rewrite (right_id_L ∅ (∪)).
  - by rewrite IH, (assoc_L (∪)).
Qed.

Lemma add_all_sources_delta (srcs dl : list Z) :
  add_all (add_all ∅ srcs) dl = union_set srcs dl.
Proof.
  unfold union_set.
  by rewrite !add_all_union, list_to_set_app_L, (left_id_L ∅ (∪)).
Qed.

Lemma filter_not_in_add_all (dl srcs : list Z) :
  filter (fun s => s ∉ add_all ∅ dl) srcs = list_difference srcs dl.
Proof.
  rewrite add_all_union, (left_id_L ∅ (∪)).
  induction srcs as [|s srcs IH]; [done|].
  rewrite filter_cons. simpl. rewrite IH.
  destruct (decide_rel elem_of s dl) as [Hin|Hnin];
    destruct (decide (s ∉ list_to_set dl)) as [H|H]; try done; exfalso.
  - apply H. by apply elem_of_list_to_set.
  - apply H. intros Hin. by apply elem_of_list_to_set in Hin.
Qed.

Lemma shiftr_2_div_4 (n : Z) : Z.shiftr n 2 = n / 4.
Proof. by rewrite Z.shiftr_div_pow2. Qed.

Section PassRefinement.
Context {G : Type} `{RT : Runtime G}.
Variables ipver addrmax : Z.

Lemma emit_does (st : globals) :
  does (G:=G) (emit ipver st) (fun _ evs => evs = step_lines ipver st).
Proof.
  unfold emit, print_stdout, print_stderr.
  repeat (eapply does_bind; [apply does_emit_event|]; intros _ ? ->).
  eapply does_mono; [apply does_emit_event|]. by intros _ ? ->.
Qed.

Lemma absolute_branch_does (st : globals) sel :
  0 < addrmax -> selected (o st) "" sel ->
  does (absolute_branch ipver addrmax st)
    (fun r evs => attempt_of ipver addrmax st r.1 r.2 (sel ++ evs)).
Proof.
  intros Hmax Hsel. unfold absolute_branch.
  eapply does_bind.
  { apply delta_loop_does with (fuel := Z.to_nat addrmax);
      [done|lia|simpl; lia]. }
  intros r e1 Hb. apply does_ret. rewrite app_nil_r. simpl.
  by apply att_absolute.
Qed.

Lemma subtractive_branch_does (st : globals) sel :
  selected (o st) "-" sel ->
  does (subtractive_branch ipver st)
    (fun r evs => attempt_of ipver addrmax st r.1 r.2 (sel ++ evs)).
Proof.
  intros Hsel. unfold subtractive_branch.
  rewrite shiftr_2_div_4. fold (subtractive_bound (sources st)).
  assert (Hpos : 0 < subtractive_bound (sources st)).
  { unfold subtractive_bound.
    pose proof (Z.div_pos (Z.of_nat (length (sources st))) 4). lia. }
  eapply does_bind.
  { apply delta_loop_does
      with (fuel := Z.to_nat (subtractive_bound (sources st)));
      [done|lia|simpl; lia]. }
  intros r e1 Hb. rewrite filter_not_in_add_all.
  destruct (Nat.eqb_spec (length r.2) 0) as [E|E].
  - apply does_ret. rewrite app_nil_r. simpl.
    apply att_subtractive_rejected; try done.
    simpl. by apply nil_length_inv.
  - apply does_ret. rewrite app_nil_r. simpl.
    apply att_subtractive; try done.
    simpl. intros H. by rewrite H in E.
Qed.

Lemma additive_branch_does (st : globals) sel :
  0 < addrmax -> selected (o st) "+" sel ->
  does (additive_branch ipver addrmax st)
    (fun r evs => attempt_of ipver addrmax st r.1 r.2 (sel ++ evs)).
Proof.
  intros Hmax Hsel. unfold additive_branch.
  eapply does_bind.
  { apply delta_loop_does with (fuel := Z.to_nat addrmax);
      [done|lia|simpl; lia]. }
  intros r e1 Hb. rewrite add_all_sources_delta.
  destruct (Z.leb_spec addrmax
              (Z.of_nat (size (union_set (sources st) r.2)))) as [E|E].
  - apply does_ret. rewrite app_nil_r. simpl.
    apply att_additive_rejected; try done. simpl. by right.
  - destruct (Nat.eqb_spec (length r.2) 0) as [E0|E0].
    + apply does_ret. rewrite app_nil_r. simpl.
      apply att_additive_rejected; try done.
      simpl. left. by apply nil_length_inv.
    + apply does_ret. rewrite app_nil_r. simpl.
      apply att_additive; try done. simpl. intros H. by rewrite H in E0.
Qed.

Lemma choose_and_build_does (st : globals) :
  0 < addrmax ->
  does (choose_and_build ipver addrmax st)
    (fun r evs => attempt_of ipver addrmax st r.1 r.2 evs).
Proof.
  intros Hmax. unfold choose_and_build.
  eapply does_bind with (Q1 := fun (b : bool) evs =>
    if b then selected (o st) "" evs
    else exists u, evs = [Uniform 0 1 u] /\ o st <> 0 /\ ~ (u < 2 # 10)%Q).
  - destruct (Z.eqb_spec (o st) 0) as [E|E].
    + apply does_ret. by apply sel_first.
    + eapply does_bind; [apply does_uniform|]. intros u e1 [-> _].
      apply does_ret. simpl. destruct (Qltb u (2 # 10)) eqn:Eu.
      * apply sel_absolute; [done|]. by apply Qltb_lt.
      * exists u. repeat split; [done|]. by apply Qltb_nlt.
  - intros [|] e1 H1.
    + by apply absolute_branch_does.
    + destruct H1 as (u & -> & Ho & Hu).
      eapply does_bind; [by apply (does_choice [false; true])|].
      intros sub e2 (i & -> & Hi).
      destruct i as [|[|i]]; simpl in Hi; inversion Hi; subst.
      * eapply does_mono;
          [apply (additive_branch_does st [Uniform 0 1 u; Choice 2 0]);
           [done|by apply sel_additive]|].
        by intros r e3 H3.
      * eapply does_mono;
          [apply (subtractive_branch_does st [Uniform 0 1 u; Choice 2 1]);
           by apply sel_subtractive|].
        by intros r e3 H3.
Qed.

Lemma loop_body_does (st : globals) :
  0 < addrmax ->
  does (loop_body ipver addrmax st) (pass_of ipver addrmax st).
Proof.
  intros Hmax. unfold loop_body.
  eapply does_bind; [by apply choose_and_build_does|].
  intros [c st1] e1 H1. simpl in *. destruct c.
  - apply does_ret. rewrite app_nil_r. by apply pass_rejected.
  - eapply does_bind; [apply emit_does|]. intros _ e2 ->.
    apply does_ret. rewrite app_nil_r. by apply pass_accepted.
Qed.

End PassRefinement.

Section InvariantProofs.
Context {G : Type} `{RT : Runtime G}.
Variables ipver addrmax : Z.

Lemma stdout_of_app (l1 l2 : list event) :
  stdout_of (l1 ++ l2) = stdout_of l1 ++ stdout_of l2.
Proof. apply omap_app. Qed.

Lemma stderr_of_app (l1 l2 : list event) :
  stderr_of (l1 ++ l2) = stderr_of l1 ++ stderr_of l2.
Proof. apply omap_app. Qed.

Lemma wellformed_nil : wellformed ipver [].
Proof. split; [constructor|]. intros b d x H. by apply elem_of_nil in H. Qed.

Lemma wellformed_app (e1 e2 : list event) :
  wellformed ipver e1 -> wellformed ipver e2 -> wellformed ipver (e1 ++ e2).
Proof.
  intros [S1 D1] [S2 D2]. split; [by apply Forall_app|].
  intros b d x H. apply elem_of_app in H. apply elem_of_app.
  destruct H as [H|H]; [left; eauto|right; eauto].
Qed.

Lemma silent_nil : silent [].
Proof. by split. Qed.

Lemma silent_app (e1 e2 : list event) :
  silent e1 -> silent e2 -> silent (e1 ++ e2).
Proof.
  intros [O1 E1] [O2 E2]. split.
  - by rewrite stdout_of_app, O1, O2.
  - by rewrite stderr_of_app, E1, E2.
Qed.

Lemma host_bits_nonneg : 0 <= host_bits ipver.
Proof. unfold host_bits. destruct (ipver =? 4); lia. Qed.

Lemma base_in_network : in_network ipver (base_network ipver).
Proof. reflexivity. Qed.

(** XORing a vector over the host bits leaves the network prefix alone. *)
Lemma lxor_in_network (b m : Z) :
  0 <= m < 2 ^ host_bits ipver ->
  in_network ipver b -> in_network ipver (Z.lxor b m).
Proof.
  unfold in_network. intros Hm Hb.
  rewrite Z.shiftr_lxor, Hb.
  rewrite (Z.shiftr_div_pow2 m) by apply host_bits_nonneg.
  rewrite Z.div_small by done. apply Z.lxor_0_r.
Qed.

Lemma bit_draws_quiet (bits : list event) :
  Forall bit_draw bits ->
  Forall (sound_event ipver) bits /\ silent bits /\
  (forall b d x, Mkaddr b d x ∉ bits).
Proof.
  induction 1 as [|e bits [u ->] _ (IH1 & [IH2 IH3] & IH4)].
  - repeat split; try done. intros b d x H. by apply elem_of_nil in H.
  - repeat split; try done; [by constructor|].
    intros b d x H. apply elem_of_cons in H as [H|H]; [done|by eapply IH4].
Qed.

Lemma synthesized_sound (prev : option Z) (d : Q) (x : Z) evs :
  net_opt ipver prev -> (0 <= d <= modden ipver)%Q ->
  synthesized ipver prev d x evs ->
  in_network ipver x /\
  Forall (sound_event ipver) evs /\ silent evs /\
  (forall b d' x', Mkaddr b d' x' ∈ evs -> d' = d).
Proof.
  intros Hprev Hd Hs. destruct Hs as [m bits Hm Hbits Hlen ->].
  destruct (bit_draws_quiet bits Hbits) as (Hs & Hq & Hno).
  assert (Hx : in_network ipver (Z.lxor (default (base_network ipver) prev) m)).
  { apply lxor_in_network; [done|].
    destruct prev; simpl; [done|apply base_in_network]. }
  split; [done|]. split; [|split].
  - apply Forall_app. split; [done|]. apply Forall_singleton.
    simpl. split; [done|]. split; [done|]. by exists m.
  - by apply silent_app.
  - intros b d' x' H. apply elem_of_app in H as [H|H].
    + by apply Hno in H.
    + apply list_elem_of_singleton in H. by inversion H.
Qed.

Lemma candidate_sound (pool : list Z) (p : Q) (prev : option Z) x evs :
  Forall (in_network ipver) pool -> net_opt ipver prev ->
  candidate_of ipver pool p prev x evs ->
  in_network ipver x /\ wellformed ipver evs /\ silent evs.
Proof.
  intros Hpool Hprev Hc. destruct Hc as
    [u i Hne Hu Hi | d evs Hnil Hd Hs | u d evs Hne Hu Hd Hs].
  - split; [|split].
    + eapply Forall_forall; [exact Hpool|]. by eapply list_elem_of_lookup_2.
    + split.
      * forall_list; [done|]. simpl. by eapply lookup_lt_Some.
      * intros b d x' H. repeat (apply elem_of_cons in H as [H|H]; try done).
        by apply elem_of_nil in H.
    + by split.
  - destruct (synthesized_sound prev d x evs Hprev Hd Hs)
      as (Hx & Hsound & [Ho He] & Hdens).
    split; [done|]. split; [split|split].
    + by constructor.
    + intros b d' x' H. apply elem_of_cons in H as [H|H]; [done|].
      apply Hdens in H as ->. apply elem_of_cons. by left.
    + done.
    + done.
  - destruct (synthesized_sound prev d x evs Hprev Hd Hs)
      as (Hx & Hsound & [Ho He] & Hdens).
    split; [done|]. split; [split|split].
    + by forall_list.
    + intros b d' x' H.
      apply elem_of_cons in H as [H|H]; [done|].
      apply elem_of_cons in H as [H|H]; [done|].
      apply Hdens in H as ->. apply elem_of_cons. right.
      apply elem_of_cons. by left.
    + done.
    + done.
Qed.

Lemma length_test_sound (bound len : Z) (go : bool) evs :
  length_test bound len go evs ->
  wellformed ipver evs /\ silent evs.
Proof.
  intros Ht. destruct Ht; (split; [split|by split]);
    try (forall_list; simpl; lia);
    intros b d x Hin;
    repeat (apply elem_of_cons in Hin as [Hin|Hin]; try done);
    by apply elem_of_nil in Hin.
Qed.

Lemma built_sound (bound : Z) (pool : list Z -> list Z) (p : Q)
    prev dl prev' dl' evs :
  (forall l, Forall (in_network ipver) l -> Forall (in_network ipver) (pool l)) ->
  built ipver bound pool p prev dl prev' dl' evs ->
  Forall (in_network ipver) dl -> net_opt ipver prev ->
  Forall (in_network ipver) dl' /\ net_opt ipver prev' /\
  wellformed ipver evs /\ silent evs.
Proof.
  intros Hpool Hb. induction Hb as
    [prev dl t Ht | prev dl t x c prev' dl' rest Ht Hc Hb IH];
    intros Hdl Hprev.
  - destruct (length_test_sound _ _ _ _ Ht) as [Hw Hs].
    split; [done|]. split; [done|]. by split.
  - destruct (length_test_sound _ _ _ _ Ht) as [Hw1 Hs1].
    destruct (candidate_sound _ _ _ _ _ (Hpool dl Hdl) Hprev Hc)
      as (Hx & Hw2 & Hs2).
    destruct IH as (Hdl' & Hprev' & Hw3 & Hs3); [|done|].
    { apply Forall_app. split; [done|]. by constructor. }
    split; [done|]. split; [done|]. split.
    + apply wellformed_app; [done|]. by apply wellformed_app.
    + apply silent_app; [done|]. by apply silent_app.
Qed.

Lemma built_length (bound : Z) (pool : list Z -> list Z) (p : Q)
    prev dl prev' dl' evs :
  built ipver bound pool p prev dl prev' dl' evs ->
  Z.of_nat (length dl) < bound -> Z.of_nat (length dl') < bound.
Proof.
  induction 1 as [|prev dl t x c prev' dl' rest Ht Hc Hb IH]; [done|].
  intros _. apply IH. rewrite length_app. simpl. inversion Ht; lia.
Qed.

End InvariantProofs.

Section LoopProofs.
Context {G : Type} `{RT : Runtime G}.
Variables ipver addrmax numops : Z.

Lemma selected_sound (count : Z) (kind : string) sel :
  selected count kind sel ->
  wellformed ipver sel /\ silent sel /\ kind_marker kind.
Proof.
  intros Hs. unfold kind_marker.
  destruct Hs; (split; [split|split; [by split|auto]]);
    try (forall_list; simpl; done || lia);
    intros b d x Hin;
    repeat (apply elem_of_cons in Hin as [Hin|Hin]; try done);
    by apply elem_of_nil in Hin.
Qed.

Lemma length_list_difference (l k : list Z) :
  (length (list_difference l k) <= length l)%nat.
Proof.
  induction l as [|x l IH]; simpl; [lia|].
  destruct (decide_rel elem_of x k); simpl; lia.
Qed.

Lemma sorted_length (l : list Z) : length (sorted l) = length l.
Proof. unfold sorted. by rewrite merge_sort_Permutation. Qed.

Lemma sorted_Forall (P : Z -> Prop) (l : list Z) :
  Forall P l -> Forall P (sorted l).
Proof. unfold sorted. by rewrite merge_sort_Permutation. Qed.

Lemma union_set_Forall (P : Z -> Prop) (srcs dl : list Z) :
  Forall P srcs -> Forall P dl -> Forall P (elements (union_set srcs dl)).
Proof.
  intros Hs Hd. apply Forall_forall. intros x Hx.
  apply elem_of_elements in Hx. unfold union_set in Hx.
  apply elem_of_list_to_set, elem_of_app in Hx.
  destruct Hx as [Hx|Hx]; [eapply Forall_forall in Hs|eapply Forall_forall in Hd];
    eauto.
Qed.

Lemma attempt_sound (st : globals) c st1 evs :
  0 < addrmax -> invariant ipver addrmax st ->
  attempt_of ipver addrmax st c st1 evs ->
  invariant ipver addrmax st1 /\ wellformed ipver evs /\ silent evs /\
  kind_marker (deltype st1) /\ o st1 = o st.
Proof.
  intros Hmax [Isz Isrc Idl Ia Io] Hatt.
  destruct Hatt as
    [st1 sel b Hsel Hb Hk Hsrc Ho | st1 sel b Hsel Hb Hk Hne Hsrc Ho
    | st1 sel b Hsel Hb Hk Hnil Hsrc Ho
    | st1 sel b Hsel Hb Hk Hne Hsz Hsrc Ho
    | st1 sel b Hsel Hb Hk Hrej Hsrc Ho];
    destruct (selected_sound _ _ _ Hsel) as (Hw1 & Hs1 & Hkm);
    (eapply built_sound in Hb as Hbs; [|by auto|by constructor|done]);
    destruct Hbs as (Hdl' & Ha' & Hw2 & Hs2);
    (split; [|split; [by apply wellformed_app|
              split; [by apply silent_app|by rewrite Hk]]]);
    split; try done; try lia; rewrite Hsrc; try done.
  - rewrite sorted_length. eapply built_length; [done|simpl; lia].
  - by apply sorted_Forall.
  - pose proof (length_list_difference (sources st) (delta st1)). lia.
  - by apply Forall_list_difference.
  - by rewrite sorted_length.
  - by apply sorted_Forall, union_set_Forall.
Qed.

Lemma step_lines_printed (st : globals) :
  printed ipver [step_of st] (step_lines ipver st).
Proof. by split. Qed.

Lemma step_lines_wellformed (st : globals) :
  wellformed ipver (step_lines ipver st).
Proof.
  split; [by unfold step_lines; forall_list|].
  intros b d x Hin. unfold step_lines in Hin.
  repeat (apply elem_of_cons in Hin as [Hin|Hin]; try done).
  by apply elem_of_nil in Hin.
Qed.

Lemma printed_app (s1 s2 : list step) (e1 e2 : list event) :
  printed ipver s1 e1 -> printed ipver s2 e2 ->
  printed ipver (s1 ++ s2) (e1 ++ e2).
Proof.
  intros [O1 E1] [O2 E2]. unfold printed.
  by rewrite stdout_of_app, stderr_of_app, !flat_map_app, O1, O2, E1, E2.
Qed.

Lemma silent_printed (evs : list event) : silent evs -> printed ipver [] evs.
Proof. by intros [??]. Qed.

(** What a pass adds to the transcript: nothing, or one step. *)
Lemma pass_sound (st st' : globals) evs :
  0 < addrmax -> invariant ipver addrmax st ->
  pass_of ipver addrmax st st' evs ->
  invariant ipver addrmax st' /\ wellformed ipver evs /\
  ((o st' = o st /\ printed ipver [] evs) \/
   (o st' = o st + 1 /\ printed ipver [step_of st'] evs /\
    kind_marker (deltype st'))).
Proof.
  intros Hmax Hinv Hp. destruct Hp as [st1 evs Hatt|st1 evs Hatt];
    destruct (attempt_sound _ _ _ _ Hmax Hinv Hatt)
      as (Hinv1 & Hw & Hs & Hk & Ho).
  - split; [done|]. split; [done|]. left. split; [done|].
    by apply silent_printed.
  - split; [|split].
    + destruct Hinv1. split; simpl; try done. lia.
    + apply wellformed_app; [done|]. apply step_lines_wellformed.
    + right. split; [simpl; lia|]. split; [|done].
      apply (printed_app [] [step_of st1]);
        [by apply silent_printed|apply step_lines_printed].
Qed.

End LoopProofs.

Section RunProofs.
Context {G : Type} `{RT : Runtime G}.
Variables ipver addrmax numops : Z.

Lemma initial_invariant :
  0 < addrmax -> invariant ipver addrmax initial_globals.
Proof. intros H. split; simpl; try done; lia. Qed.

Lemma while_loop_does (n : nat) : forall st : globals,
  0 < addrmax -> invariant ipver addrmax st -> o st <= numops ->
  does (while_loop ipver addrmax numops n st)
    (fun st' evs =>
       invariant ipver addrmax st' /\ wellformed ipver evs /\
       o st' <= numops /\
       exists steps,
         o st' = o st + Z.of_nat (length steps) /\
         printed ipver steps evs /\
         Forall (fun s => kind_marker (step_kind s)) steps).
Proof.
  induction n as [|n IH]; intros st Hmax Hinv Ho; simpl.
  - apply does_ret. split; [done|]. split; [apply wellformed_nil|].
    split; [done|]. exists []. simpl. split; [lia|]. by split.
  - destruct (Z.ltb_spec (o st) numops) as [Hlt|Hge].
    + eapply does_bind; [by apply loop_body_does|].
      intros st1 e1 Hp.
      destruct (pass_sound _ _ _ _ _ Hmax Hinv Hp) as (Hinv1 & Hw1 & Hcase).
      eapply does_mono; [apply IH; [done|done|]|].
      { destruct Hcase as [[E _]|[E _]]; lia. }
      intros st' e2 (Hinv' & Hw2 & Ho' & steps & Hcount & Hpr & Hk).
      split; [done|]. split; [by apply wellformed_app|]. split; [done|].
      destruct Hcase as [[E Hp1]|(E & Hp1 & Hk1)].
      * exists steps. split; [lia|]. split; [|done].
        by apply (printed_app ipver [] steps).
      * exists (step_of st1 :: steps). split; [simpl length; lia|].
        split; [by apply (printed_app ipver [step_of st1] steps)|].
        by constructor.
    + apply does_ret. split; [done|]. split; [apply wellformed_nil|].
      split; [done|]. exists []. simpl. split; [lia|]. by split.
Qed.

Lemma script_body_does (n : nat) :
  valid_params ipver addrmax numops ->
  does (script_body ipver addrmax numops n)
    (outcome_of ipver addrmax numops).
Proof.
  intros (Hip & Hmax & Hnum). unfold script_body.
  assert (negb (ipver =? 4) && negb (ipver =? 6) = false) as ->.
  { destruct Hip as [-> | ->]; reflexivity. }
  destruct (Z.ltb_spec addrmax 1); [lia|].
  destruct (Z.ltb_spec numops 1); [lia|].
  eapply does_bind.
  { apply while_loop_does; [lia|apply initial_invariant; lia|simpl; lia]. }
  intros st e1 (Hinv & Hw & Ho & steps & Hcount & [Hout Herr] & Hk).
  simpl in Hcount.
  destruct (Z.ltb_spec (o st) numops) as [Hlt|Hge].
  - apply does_ret. rewrite app_nil_r. split; [done|]. split; [done|].
    exists steps. simpl. by repeat split.
  - unfold print_stdout, print_stderr.
    eapply does_bind; [apply does_emit_event|]. intros _ e2 ->.
    eapply does_bind; [apply does_emit_event|]. intros _ e3 ->.
    apply does_ret. simpl. split; [done|]. split.
    + apply wellformed_app; [done|]. split; [by forall_list|].
      intros b d x Hin.
      repeat (apply elem_of_cons in Hin as [Hin|Hin]; try done).
      by apply elem_of_nil in Hin.
    + exists steps. simpl. split; [done|]. split; [done|].
      split; [done|]. split; [lia|].
      rewrite stdout_of_app, stderr_of_app, Hout, Herr.
      split; [done|]. split; [done|]. by exists e1.
Qed.

(** With parameters the script rejects, it raises before anything else
    happens. *)
Lemma script_body_invalid (n : nat) (w : world G) :
  ~ valid_params ipver addrmax numops ->
  exists msg, script_body ipver addrmax numops n w = (Raise (Exception msg), w).
Proof.
  intros Hbad. unfold script_body, valid_params in *.
  destruct (Z.eqb_spec ipver 4), (Z.eqb_spec ipver 6); simpl;
    try (destruct (Z.ltb_spec addrmax 1); [by eexists|];
         destruct (Z.ltb_spec numops 1); [by eexists|];
         exfalso; apply Hbad; repeat split; auto; lia).
  by eexists.
Qed.

Lemma valid_params_dec :
  valid_params ipver addrmax numops \/ ~ valid_params ipver addrmax numops.
Proof. unfold valid_params. lia. Qed.

(** The run of the script, when it returns. *)
Lemma run_outcome (n : nat) (seed : Z) r (w : world G) :
  run n seed ipver addrmax numops = (Ok r, w) ->
  valid_params ipver addrmax numops /\
  outcome_of ipver addrmax numops r (log w).
Proof.
  unfold run. intros E. destruct valid_params_dec as [Hv|Hbad].
  - split; [done|].
    destruct (does_run _ _ _ _ _ (script_body_does n Hv) E) as (evs & El & H).
    simpl in El. by rewrite El.
  - destruct (script_body_invalid n (World (rt_seed seed) []) Hbad) as [msg Em].
    rewrite Em in E. discriminate.
Qed.

(** With valid parameters the script body always returns: nothing in it
    raises, and no delta loop runs out of fuel. *)
Lemma run_returns (n : nat) (seed : Z) :
  valid_params ipver addrmax numops ->
  exists r (w : world G), run n seed ipver addrmax numops = (Ok r, w).
Proof.
  intros Hv. destruct (script_body_does n Hv (World (rt_seed seed) []))
    as (r & g & evs & E & _).
  by eexists _, _.
Qed.

End RunProofs.

Section StepProofs.
Context {G : Type} `{RT : Runtime G}.
Variables ipver addrmax numops : Z.

(** A rejected attempt is the whole pass. *)
Lemma loop_body_continue (st st1 : globals) (w w1 : world G) :
  choose_and_build ipver addrmax st w = (Ok (Continue, st1), w1) ->
  loop_body ipver addrmax st w = (Ok st1, w1).
Proof. intros E. unfold loop_body, bind. by rewrite E. Qed.

Lemma strictly_sorted (l : list Z) :
  StronglySorted Z.le l -> NoDup l -> StronglySorted Z.lt l.
Proof.
  induction 1 as [|x l Hs IH Hall]; intros Hnd; [constructor|].
  apply NoDup_cons in Hnd as [Hx Hnd]. constructor; [by apply IH|].
  apply Forall_forall. intros y Hy.
  eapply Forall_forall in Hall; [|exact Hy].
  assert (x <> y) by (by intros ->). lia.
Qed.

Lemma sorted_elements_strict (X : gset Z) :
  StronglySorted Z.lt (sorted (elements X)).
Proof.
  apply strictly_sorted.
  - unfold sorted. apply StronglySorted_merge_sort; apply _.
  - unfold sorted. rewrite merge_sort_Permutation. apply NoDup_elements.
Qed.

Lemma elem_of_sorted_union (x : Z) (srcs dl : list Z) :
  x ∈ sorted (elements (union_set srcs dl)) <-> x ∈ srcs \/ x ∈ dl.
Proof.
  unfold sorted, union_set.
  by rewrite merge_sort_Permutation, elem_of_elements, elem_of_list_to_set,
    elem_of_app.
Qed.

Lemma while_loop_unfold (n : nat) (st : globals) (w : world G) :
  while_loop ipver addrmax numops (S n) st w =
  if o st <? numops
  then bind (loop_body ipver addrmax st)
         (while_loop ipver addrmax numops n) w
  else (Ok st, w).
Proof. simpl. by destruct (o st <? numops). Qed.

(** Once the loop has been left, more passes change nothing. *)
Lemma while_loop_more (n : nat) : forall (st st' : globals) (w w' : world G),
  while_loop ipver addrmax numops n st w = (Ok st', w') ->
  ~ o st' < numops ->
  while_loop ipver addrmax numops (S n) st w = (Ok st', w').
Proof.
  induction n as [|n IH]; intros st st' w w' E Hleft.
  - simpl in E. inversion E; subst. simpl.
    by destruct (Z.ltb_spec (o st') numops).
  - rewrite while_loop_unfold in E. rewrite while_loop_unfold.
    destruct (o st <? numops); [|done].
    unfold bind in *.
    destruct (loop_body ipver addrmax st w) as [[x|e|] w0]; try done.
    by apply IH.
Qed.

Lemma while_loop_later (n m : nat) (st st' : globals) (w w' : world G) :
  while_loop ipver addrmax numops n st w = (Ok st', w') ->
  ~ o st' < numops -> (n <= m)%nat ->
  while_loop ipver addrmax numops m st w = (Ok st', w').
Proof.
  intros E Hleft Hle. induction Hle as [|m Hle IH]; [done|].
  by apply while_loop_more.
Qed.

(** A run that has exited is the same run under any later cut-off. *)
Lemma run_exited_later (n m : nat) (seed : Z) code st (w : world G) :
  run n seed ipver addrmax numops = (Ok (Exited code, st), w) ->
  (n <= m)%nat ->
  run m seed ipver addrmax numops = (Ok (Exited code, st), w).
Proof.
  unfold run, script_body. intros E Hle.
  destruct (negb (ipver =? 4) && negb (ipver =? 6)); [done|].
  destruct (addrmax <? 1); [done|]. destruct (numops <? 1); [done|].
  unfold bind in *.
  destruct (while_loop ipver addrmax numops n initial_globals
              (World (rt_seed seed) [])) as [[stl|e|] wl] eqn:El; try done.
  destruct (Z.ltb_spec (o stl) numops) as [Hlt|Hge]; [done|].
  rewrite (while_loop_later n m _ _ _ _ El) by (done || lia).
  by destruct (Z.ltb_spec (o stl) numops); [lia|].
Qed.

End StepProofs.

Section BuiltFacts.
Variable ipver : Z.

(** Every [randrange] call of a delta loop draws from [0, bound). *)
Lemma built_draws (bound : Z) (pool : list Z -> list Z) (p : Q)
    prev dl prev' dl' evs :
  built ipver bound pool p prev dl prev' dl' evs ->
  forall lo hi r, Randrange lo hi r ∈ evs ->
    lo = 0 /\ hi = bound /\ 0 <= r < bound.
Proof.
  assert (Htest : forall len go t, length_test bound len go t ->
    forall lo hi r, Randrange lo hi r ∈ t ->
      lo = 0 /\ hi = bound /\ 0 <= r < bound).
  { intros len go t Ht lo hi r Hin. destruct Ht;
      repeat (apply elem_of_cons in Hin as [Hin|Hin];
              [by inversion Hin; subst|]);
      by apply elem_of_nil in Hin. }
  assert (Hsyn : forall b d x evs0, synthesized ipver b d x evs0 ->
    forall lo hi r, Randrange lo hi r ∉ evs0).
  { intros b d x evs0 Hs lo hi r Hin. destruct Hs as [m bits _ Hbits _ _].
    apply elem_of_app in Hin as [Hin|Hin].
    - eapply Forall_forall in Hbits; [|exact Hin]. by destruct Hbits.
    - apply list_elem_of_singleton in Hin. discriminate. }
  assert (Hcand : forall pl pv x c, candidate_of ipver pl p pv x c ->
    forall lo hi r, Randrange lo hi r ∉ c).
  { intros pl pv x c Hc lo hi r Hin. destruct Hc;
      repeat (apply elem_of_cons in Hin as [Hin|Hin]; [discriminate|]);
      try (by apply elem_of_nil in Hin); by eapply Hsyn. }
  induction 1 as [prev dl t Ht|prev dl t x c prev' dl' rest Ht Hc Hb IH];
    intros lo hi r Hin.
  - by eapply Htest.
  - apply elem_of_app in Hin as [Hin|Hin]; [by eapply Htest|].
    apply elem_of_app in Hin as [Hin|Hin]; [|by apply IH].
    exfalso. by eapply Hcand.
Qed.

(** Every member of a delta list built from a fixed pool was re-selected
    from the pool or returned by [mkaddr]. *)
Lemma built_members (bound : Z) (srcs : list Z) (p : Q)
    prev dl prev' dl' evs :
  built ipver bound (fun _ => srcs) p prev dl prev' dl' evs ->
  forall x, x ∈ dl' ->
    x ∈ dl \/ x ∈ srcs \/ exists b d, Mkaddr b d x ∈ evs.
Proof.
  assert (Hsyn : forall b d x evs0, synthesized ipver b d x evs0 ->
    Mkaddr b d x ∈ evs0).
  { intros b d x evs0 Hs. destruct Hs. apply elem_of_app. right.
    by apply list_elem_of_singleton. }
  assert (Hcand : forall pv x c, candidate_of ipver srcs p pv x c ->
    x ∈ srcs \/ exists b d, Mkaddr b d x ∈ c).
  { intros pv x c Hc. destruct Hc as [u i _ _ Hi|d evs0 _ _ Hs|u d evs0 _ _ _ Hs].
    - left. by eapply list_elem_of_lookup_2.
    - right. exists pv, d. apply elem_of_cons. right. by apply Hsyn.
    - right. exists pv, d. do 2 (apply elem_of_cons; right). by apply Hsyn. }
  induction 1 as [prev dl t Ht|prev dl t x c prev' dl' rest Ht Hc Hb IH];
    intros y Hy; [by left|].
  destruct (IH y Hy) as [Hin|[Hin|(b & d & Hin)]].
  - apply elem_of_app in Hin as [Hin|Hin]; [by left|].
    apply list_elem_of_singleton in Hin as ->.
    destruct (Hcand _ _ _ Hc) as [Hx|(b & d & Hx)]; [by right; left|].
    right. right. exists b, d. apply elem_of_app. right.
    apply elem_of_app. by left.
  - by right; left.
  - right. right. exists b, d. apply elem_of_app. right.
    apply elem_of_app. by right.
Qed.

(** Building a delta list prints nothing. *)
Lemma built_silent (bound : Z) (pool : list Z -> list Z) (p : Q)
    prev dl prev' dl' evs :
  built ipver bound pool p prev dl prev' dl' evs -> silent evs.
Proof.
  assert (Hsyn : forall b d x evs0, synthesized ipver b d x evs0 ->
    silent evs0).
  { intros b d x evs0 Hs. destruct Hs as [m bits _ Hbits _ _].
    apply silent_app; [|by split].
    by destruct (bit_draws_quiet ipver bits Hbits) as (_ & Hs & _). }
  assert (Hcand : forall pl pv x c, candidate_of ipver pl p pv x c ->
    silent c).
  { intros pl pv x c Hc. destruct Hc as [| ? ? ? ? Hs| ? ? ? ? ? ? Hs];
      [by split| |]; apply Hsyn in Hs as [So Se]; by split. }
  induction 1 as [prev dl t Ht|prev dl t x c prev' dl' rest Ht Hc Hb IH].
  - by destruct Ht.
  - apply silent_app; [by destruct Ht|].
    apply silent_app; [by eapply Hcand|done].
Qed.

End BuiltFacts.

(** ** Properties of the generator *)
Section Claims.
Context {G : Type} `{RT : Runtime G}.

(** C6: every address [mkaddr] ever returned, and hence every member of a
    delta list, of [sources], and the chained previous address, has the
    network prefix of the base network: for IPv4 the bits above the low
    24 are those of 10.0.0.0, for IPv6 the bits above the low 96 are those
    of fd05:aaaa::.  Each synthesized address is its base XORed with a
    vector confined to the 24 (IPv4) or 96 (IPv6) host bits. *)
Theorem synthesized_addresses_in_base_network
    (n : nat) (seed ipver addrmax numops : Z) s st (w : world G) :
  run n seed ipver addrmax numops = (Ok (s, st), w) ->
  let prefix_kept x :=
    (ipver = 4 -> Z.shiftr x 24 = Z.shiftr 0x0a000000 24) /\
    (ipver = 6 ->
       Z.shiftr x 96 = Z.shiftr 0xfd05aaaa000000000000000000000000 96) in
  (forall b d x, Mkaddr b d x ∈ log w ->
     prefix_kept x /\
     exists m, 0 <= m < 2 ^ (if ipver =? 4 then 24 else 96) /\
       x = Z.lxor (default (if ipver =? 4 then 0x0a000000
                            else 0xfd05aaaa000000000000000000000000) b) m) /\
  Forall prefix_kept (sources st) /\
  Forall prefix_kept (delta st) /\
  (forall v, a st = Some v -> prefix_kept v).
Proof.
  intros E prefix_kept.
  destruct (run_outcome _ _ _ _ _ _ _ E) as (Hv & Hinv & [Hsound _] & _).
  assert (Hpk : forall x, in_network ipver x -> prefix_kept x).
  { intros x Hx. unfold prefix_kept, in_network, host_bits, base_network in *.
    split; intros ->; exact Hx. }
  destruct Hinv as [_ Hsrc Hdl Ha _]. simpl in *.
  split; [|split; [|split]].
  - intros b d x Hin.
    eapply Forall_forall in Hsound; [|exact Hin]. simpl in Hsound.
    destruct Hsound as (Hx & _ & Hm). split; [by apply Hpk|exact Hm].
  - eapply Forall_impl; [exact Hsrc|exact Hpk].
  - eapply Forall_impl; [exact Hdl|exact Hpk].
  - intros v Ev. rewrite Ev in Ha. by apply Hpk.
Qed.


(** C10: [rnd.choice] is never applied to an empty sequence: no run raises
    IndexError, and every logged choice is over at least one item.  When
    [sources] is empty, a subtractive attempt draws the bound 0 twice,
    builds an empty delta list without sampling anything, and is
    rejected. *)
Theorem choice_never_on_empty_sequence
    (n : nat) (seed ipver addrmax numops : Z) :
  fst (run (G:=G) n seed ipver addrmax numops) <> Raise IndexError /\
  (ChoiceEmpty ∉ log (snd (run (G:=G) n seed ipver addrmax numops))) /\
  (forall k i,
     Choice k i ∈ log (snd (run (G:=G) n seed ipver addrmax numops)) ->
     (0 < k)%nat) /\
  (forall st c st1 (w w1 : world G),
     0 < addrmax -> sources st = [] ->
     choose_and_build ipver addrmax st w = (Ok (c, st1), w1) ->
     deltype st1 = "-" ->
     c = Continue /\ delta st1 = [] /\
     exists u, log w1 = log w ++ [Uniform 0 1 u; Choice 2 1;
                                  Randrange 0 1 0; Randrange 0 1 0]).
Proof.
  set (r := run (G:=G) n seed ipver addrmax numops).
  assert (Hlog : fst r <> Raise IndexError /\
                 Forall (sound_event ipver) (log (snd r))).
  { subst r. destruct (valid_params_dec ipver addrmax numops) as [Hv|Hbad].
    - destruct (run_returns _ _ _ n seed Hv) as (x & w & E).
      destruct x as [s st].
      destruct (run_outcome _ _ _ _ _ _ _ E) as (_ & _ & [Hsound _] & _).
      by rewrite E.
    - unfold run.
      destruct (script_body_invalid _ _ _ n (World (rt_seed seed) []) Hbad)
        as [msg ->].
      by split. }
  destruct Hlog as [Hok Hsound]. split; [done|]. split; [|split].
  - intros Hin. by eapply Forall_forall in Hsound; [|exact Hin].
  - intros k i Hin. eapply Forall_forall in Hsound; [|exact Hin].
    simpl in Hsound. lia.
  - intros st c st1 w w1 Hmax Hnil E Hk.
    destruct (does_run _ _ _ _ _ (choose_and_build_does _ _ st Hmax) E)
      as (evs & El & Hatt).
    simpl in Hatt. rewrite El. clear E El.
    assert (Hempty : forall sel b,
      selected (o st) "-" sel ->
      built ipver (subtractive_bound (sources st)) (fun _ => sources st)
        float_0_6 (a st) [] (a st1) (delta st1) b ->
      delta st1 = [] /\
      exists u, sel ++ b = [Uniform 0 1 u; Choice 2 1;
                            Randrange 0 1 0; Randrange 0 1 0]).
    { intros sel b Hsel Hb. rewrite Hnil in Hb.
      change (subtractive_bound []) with 1 in Hb.
      inversion Hsel as [| | |u Ho Hu]; subst.
      inversion Hb as [? ? ? Ht|? ? ? ? ? ? ? ? Ht]; subst.
      - split; [done|]. exists u.
        inversion Ht as [| |r1 r2 Hr1 Hr2]; subst.
        assert (r1 = 0) by lia. assert (r2 = 0) by lia. by subst.
      - exfalso. simpl in Ht. inversion Ht; lia. }
    inversion Hatt; subst; try congruence;
      match goal with
      | Hs : selected _ _ ?sel, Hb : built _ _ _ _ _ _ _ _ ?b |- _ =>
          try (rewrite Hk in Hs);
          destruct (Hempty sel b) as [Hd Hex]; try done
      end.
    destruct Hex as [u Hu]. split; [done|]. split; [done|].
    exists u. by rewrite Hu.
Qed.

(** C2: whenever the script body is between passes, [sources] has fewer
    than [addrmax] members; and every accepted attempt leaves it so.  An
    absolute set never builds a delta list of [addrmax] members or more,
    and an additive delta is accepted only if the set of all members of
    [sources] and the delta list has fewer than [addrmax] members. *)
Theorem sources_stay_below_addrmax
    (n : nat) (seed ipver addrmax numops : Z) s st (w : world G) :
  run n seed ipver addrmax numops = (Ok (s, st), w) ->
  0 <= Z.of_nat (length (sources st)) < addrmax /\
  forall st1 (w1 : world G),
    choose_and_build ipver addrmax st w = (Ok (Fallthrough, st1), w1) ->
    0 <= Z.of_nat (length (sources st1)) < addrmax /\
    (deltype st1 = "" -> Z.of_nat (length (delta st1)) < addrmax) /\
    (deltype st1 = "+" ->
       Z.of_nat (size (union_set (sources st) (delta st1))) < addrmax).
Proof.
  intros E.
  destruct (run_outcome _ _ _ _ _ _ _ E) as ((_ & Hmax & _) & Hinv & _).
  simpl in Hinv. split; [destruct Hinv; lia|].
  intros st1 w1 E1. assert (Hpos : 0 < addrmax) by lia.
  destruct (does_run _ _ _ _ _ (choose_and_build_does _ _ st Hpos) E1)
    as (evs & _ & Hatt).
  simpl in Hatt.
  destruct (attempt_sound _ _ _ _ _ _ Hpos Hinv Hatt) as ([Hsz _ _ _ _] & _).
  split; [lia|]. split.
  - intros Hk. inversion Hatt; subst; try congruence.
    eapply built_length; [eassumption|simpl; lia].
  - intros Hk. inversion Hatt; subst; try congruence.
Qed.

(** C5: an additive attempt is rejected exactly when its delta list is
    empty or the set of all members of [sources] and the delta list has
    [addrmax] members or more.  A rejected attempt is the whole pass: it
    leaves [sources] and [o] as they were and prints nothing.  An accepted
    one sets [sources] to the members of that set in increasing order. *)
Theorem additive_attempt_outcome
    (ipver addrmax : Z) (st : globals) (w : world G) c st1 (w1 : world G) :
  0 < addrmax ->
  choose_and_build ipver addrmax st w = (Ok (c, st1), w1) ->
  deltype st1 = "+" ->
  (c = Continue <->
     delta st1 = [] \/
     addrmax <= Z.of_nat (size (union_set (sources st) (delta st1)))) /\
  (c = Continue ->
     loop_body ipver addrmax st w = (Ok st1, w1) /\
     sources st1 = sources st /\ o st1 = o st /\
     stdout_of (log w1) = stdout_of (log w) /\
     stderr_of (log w1) = stderr_of (log w)) /\
  (c = Fallthrough ->
     sources st1 = sorted (elements (union_set (sources st) (delta st1))) /\
     StronglySorted Z.lt (sources st1) /\
     forall x, x ∈ sources st1 <-> x ∈ sources st \/ x ∈ delta st1).
Proof.
  intros Hpos E Hk.
  destruct (does_run _ _ _ _ _ (choose_and_build_does _ _ st Hpos) E)
    as (evs & El & Hatt).
  simpl in Hatt.
  inversion Hatt as
    [| | |? sel b Hsel Hb _ Hne Hsz Hsrc Ho
     |? sel b Hsel Hb _ Hrej Hsrc Ho]; subst; try congruence.
  - split; [|split]; [|done|].
    + split; [done|]. intros [Hd|Hd]; [done|lia].
    + intros _. rewrite Hsrc. split; [done|].
      split; [apply sorted_elements_strict|].
      intros x. apply elem_of_sorted_union.
  - split; [|split]; [done| |done].
    intros _. split; [by apply loop_body_continue|].
    split; [done|]. split; [done|].
    destruct (selected_sound ipver _ _ _ Hsel) as (_ & [So Se] & _).
    destruct (built_silent _ _ _ _ _ _ _ _ _ Hb) as [Bo Be].
    by rewrite El, !stdout_of_app, !stderr_of_app, So, Se, Bo, Be, !app_nil_r.
Qed.

(** C7: a subtractive attempt draws every length bound from
    [0, |sources| + |sources|/4 + 1); each candidate is a member of
    [sources], re-selected only when [sources] is not empty and a draw
    falls below the float 0.6, or else a synthesized address; an empty
    delta list
    makes the attempt the whole pass, with [sources] and [o] unchanged; an
    accepted attempt removes from [sources] the members of the delta list,
    those that are not in [sources] removing nothing. *)
Theorem subtractive_attempt_outcome
    (ipver addrmax : Z) (st : globals) (w : world G) c st1 (w1 : world G) :
  0 < addrmax ->
  choose_and_build ipver addrmax st w = (Ok (c, st1), w1) ->
  deltype st1 = "-" ->
  let bound := Z.of_nat (length (sources st))
               + Z.of_nat (length (sources st)) / 4 + 1 in
  exists sel evs,
    log w1 = log w ++ sel ++ evs /\
    selected (o st) "-" sel /\
    built ipver bound (fun _ => sources st) float_0_6
      (a st) [] (a st1) (delta st1) evs /\
    (forall lo hi r, Randrange lo hi r ∈ evs ->
       lo = 0 /\ hi = bound /\ 0 <= r < bound) /\
    (forall x, x ∈ delta st1 ->
       x ∈ sources st \/ exists b d, Mkaddr b d x ∈ evs) /\
    (c = Continue <-> delta st1 = []) /\
    (c = Continue ->
       loop_body ipver addrmax st w = (Ok st1, w1) /\
       sources st1 = sources st /\ o st1 = o st) /\
    (c = Fallthrough ->
       sources st1 = list_difference (sources st) (delta st1) /\
       forall x, x ∈ sources st1 <-> x ∈ sources st /\ x ∉ delta st1).
Proof.
  intros Hpos E Hk bound.
  destruct (does_run _ _ _ _ _ (choose_and_build_does _ _ st Hpos) E)
    as (evs & El & Hatt).
  simpl in Hatt.
  inversion Hatt as
    [|? sel b Hsel Hb _ Hne Hsrc Ho|? sel b Hsel Hb _ Hnil Hsrc Ho| |];
    subst; try congruence;
    exists sel, b; (split; [done|]); (split; [done|]); (split; [done|]);
    (split; [by eapply built_draws|]);
    (split; [intros x Hx;
             destruct (built_members _ _ _ _ _ _ _ _ _ Hb x Hx)
               as [Hin|[Hin|Hin]];
             [by apply elem_of_nil in Hin|by left|by right]|]).
  - split; [done|]. split; [done|]. intros _. split; [done|].
    intros x. rewrite Hsrc. apply list_elem_of_difference.
  - split; [done|]. split; [|done].
    intros _. split; [by apply loop_body_continue|]. by split.
Qed.

(** C8: a run that exits has printed, for each of exactly [numops]
    accepted steps, the command line [-E], kind marker, address list and
    the query line [?E] on stdout and their three lines on stderr; then
    [.x] on stdout and its echo on stderr; and nothing after that.  An
    empty address list is printed as [-], others joined by commas. *)
Theorem exited_run_transcript
    (n : nat) (seed ipver addrmax numops : Z) code st (w : world G) :
  run n seed ipver addrmax numops = (Ok (Exited code, st), w) ->
  code = 0 /\
  (exists steps,
     Z.of_nat (length steps) = numops /\
     Forall (fun s => step_kind s = "" \/ step_kind s = "+"
                      \/ step_kind s = "-") steps /\
     stdout_of (log w) =
       flat_map (fun s => [ "-E" +:+ step_kind s
                              +:+ addrsout ipver (step_delta s); "?E" ])
         steps ++ [".x"] /\
     stderr_of (log w) =
       flat_map (oracle_lines ipver) steps
         ++ ["received command for x .x"]) /\
  (exists before,
     log w = before ++ [Stdout ".x"; Stderr "received command for x .x"]) /\
  addrsout ipver [] = "-" /\
  (forall x l, addrsout ipver (x :: l)
               = String.concat "," (map (addrout ipver) (x :: l))).
Proof.
  intros E.
  destruct (run_outcome _ _ _ _ _ _ _ E)
    as (_ & _ & _ & steps & Hn & Hk & Hc & Ho & Hout & Herr & Hlast).
  simpl in *. split; [done|]. split; [|by repeat split].
  exists steps. split; [lia|]. by repeat split.
Qed.

(** C4: the two streams of a run that exits are determined by the four
    parameters: two runs on the same parameters that both exit, whatever
    their cut-offs, end with the same exit code, globals, generator state
    and log, hence the same lines on stdout and on stderr. *)
Theorem exited_runs_agree
    (n1 n2 : nat) (seed ipver addrmax numops : Z)
    code1 code2 st1 st2 (w1 w2 : world G) :
  run n1 seed ipver addrmax numops = (Ok (Exited code1, st1), w1) ->
  run n2 seed ipver addrmax numops = (Ok (Exited code2, st2), w2) ->
  stdout_of (log w1) = stdout_of (log w2) /\
  stderr_of (log w1) = stderr_of (log w2) /\
  code1 = code2 /\ st1 = st2 /\ w1 = w2.
Proof.
  intros E1 E2.
  apply (run_exited_later _ _ _ n1 (Nat.max n1 n2)) in E1; [|lia].
  apply (run_exited_later _ _ _ n2 (Nat.max n1 n2)) in E2; [|lia].
  rewrite E1 in E2. by inversion E2; subst.
Qed.

End Claims.

(** ** The scripted runs, evaluated *)

(** C3: the first step of the scripted run is an absolute set whose delta
    list names 10.0.0.3 twice.  The script sets [sources] to the sorted
    delta list as it is, so the address is in [sources] twice; the delta
    list without duplicates has one member. *)
Theorem absolute_set_keeps_duplicates :
  demo_run 1 = (Ok (Running, demo_globals 1), demo_world 1) /\
  deltype (demo_globals 1) = "" /\
  delta (demo_globals 1) = [0x0a000003; 0x0a000003] /\
  sources (demo_globals 1) = [0x0a000003; 0x0a000003] /\
  ~ NoDup (sources (demo_globals 1)) /\
  sorted (elements (union_set [] (delta (demo_globals 1)))) = [0x0a000003].
Proof.
  split; [by vm_compute|]. split; [by vm_compute|].
  split; [by vm_compute|]. split; [by vm_compute|].
  split; [|by vm_compute].
  assert (E : sources (demo_globals 1) = [0x0a000003; 0x0a000003])
    by (by vm_compute).
  rewrite E. intros Hnd. apply NoDup_cons in Hnd as [Hnd _].
  apply Hnd. by apply elem_of_cons; left.
Qed.

(** C1: the scripted run prints the three commands [demo_commands] and
    exits.  Replayed from an empty source list, the first command leaves
    the single address 10.0.0.3; the oracle stream declares the source
    list after it as 10.0.0.3,10.0.0.3. *)
Theorem replay_differs_from_oracle :
  demo_run 3 = (Ok (Exited 0, demo_globals 3), demo_world 3) /\
  stdout_of (log (demo_world 3)) =
    flat_map (fun cmd => [ "-E" +:+ cmd.1
                             +:+ addrsout (RT := demo_runtime) 4 cmd.2;
                           "?E" ]) demo_commands ++ [".x"] /\
  stderr_of (log (demo_world 3)) =
    [ "received command for x -E10.0.0.3,10.0.0.3";
      "received command for x ?E";
      "note: x source setting: -E10.0.0.3,10.0.0.3";
      "received command for x -E+10.0.0.7";
      "received command for x ?E";
      "note: x source setting: -E10.0.0.3,10.0.0.7";
      "received command for x -E-10.0.0.7";
      "received command for x ?E";
      "note: x source setting: -E10.0.0.3";
      "received command for x .x" ] /\
  map (fun srcs => "note: x source setting: -E"
                     +:+ addrsout (RT := demo_runtime) 4 srcs)
    (replay [] demo_commands) =
    [ "note: x source setting: -E10.0.0.3";
      "note: x source setting: -E10.0.0.3,10.0.0.7";
      "note: x source setting: -E10.0.0.3" ].
Proof. repeat split; by vm_compute. Qed.


(** ** The theorems at the scripted runs *)

(** After the first pass of the scripted run and the additive attempt that
    follows it. *)
Lemma sources_stay_below_addrmax_witness :
  0 <= Z.of_nat (length (sources (demo_globals 1))) < 4 /\
  0 <= Z.of_nat (length (sources (globals_of (demo_attempt 1)))) < 4 /\
  (deltype (globals_of (demo_attempt 1)) = "" ->
   Z.of_nat (length (delta (globals_of (demo_attempt 1)))) < 4) /\
  (deltype (globals_of (demo_attempt 1)) = "+" ->
   Z.of_nat (size (union_set (sources (demo_globals 1))
                     (delta (globals_of (demo_attempt 1))))) < 4).
Proof.
  destruct (sources_stay_below_addrmax (RT := demo_runtime) 1 0 4 4 3
              Running (demo_globals 1) (demo_world 1)) as [H1 H2].
  - vm_compute. reflexivity.
  - split; [exact H1|].
    apply (H2 (globals_of (demo_attempt 1)) (demo_attempt 1).2).
    vm_compute. reflexivity.
Defined.

(** The scripted run cut off after three and after five passes. *)
Lemma exited_runs_agree_witness :
  stdout_of (log (demo_world 3)) = stdout_of (log (demo_world 5)) /\
  stderr_of (log (demo_world 3)) = stderr_of (log (demo_world 5)) /\
  0 = 0 /\ demo_globals 3 = demo_globals 5 /\ demo_world 3 = demo_world 5.
Proof.
  apply (exited_runs_agree (RT := demo_runtime) 3 5 0 4 4 3).
  - vm_compute. reflexivity.
  - vm_compute. reflexivity.
Defined.

(** The additive attempt of the scripted run, which is accepted. *)
Lemma additive_attempt_outcome_witness :
  sources (globals_of (demo_attempt 1)) = [0x0a000003; 0x0a000007] /\
  StronglySorted Z.lt (sources (globals_of (demo_attempt 1))).
Proof.
  destruct (additive_attempt_outcome (RT := demo_runtime) 4 4
              (demo_globals 1) (demo_world 1) Fallthrough
              (globals_of (demo_attempt 1)) (demo_attempt 1).2)
    as (_ & _ & Hacc).
  - lia.
  - vm_compute. reflexivity.
  - vm_compute. reflexivity.
  - destruct (Hacc eq_refl) as (Hsrc & Hsorted & _).
    split; [|exact Hsorted]. rewrite Hsrc. vm_compute. reflexivity.
Defined.

(** The addresses of the scripted run. *)
Lemma synthesized_addresses_in_base_network_witness :
  Forall (fun x => Z.shiftr x 24 = 10) (sources (demo_globals 3)).
Proof.
  destruct (synthesized_addresses_in_base_network (RT := demo_runtime)
              3 0 4 4 3 (Exited 0) (demo_globals 3) (demo_world 3))
    as (_ & Hsrc & _).
  - vm_compute. reflexivity.
  - eapply Forall_impl; [exact Hsrc|].
    intros x [H4 _]. exact (H4 eq_refl).
Defined.

(** A draw equal to the float 0.6 is not below it, so the candidate is
    synthesized, although the draw is below 6/10. *)
Lemma float_0_6_draw_synthesizes :
  Qltb float_0_6 float_0_6 = false /\ Qltb float_0_6 (6 # 10) = true.
Proof. split; reflexivity. Qed.

(** The subtractive attempt of the scripted run, which is accepted. *)
Lemma subtractive_attempt_outcome_witness :
  sources (globals_of (demo_attempt 2)) =
  list_difference (sources (demo_globals 2))
    (delta (globals_of (demo_attempt 2))).
Proof.
  destruct (subtractive_attempt_outcome (RT := demo_runtime) 4 4
              (demo_globals 2) (demo_world 2) Fallthrough
              (globals_of (demo_attempt 2)) (demo_attempt 2).2)
    as (sel & evs & _ & _ & _ & _ & _ & _ & _ & Hacc).
  - lia.
  - vm_compute. reflexivity.
  - vm_compute. reflexivity.
  - exact (proj1 (Hacc eq_refl)).
Defined.

(** The transcript of the scripted run. *)
Lemma exited_run_transcript_witness :
  exists before,
    log (demo_world 3) =
    before ++ [Stdout ".x"; Stderr "received command for x .x"].
Proof.
  destruct (exited_run_transcript (RT := demo_runtime) 3 0 4 4 3 0
              (demo_globals 3) (demo_world 3)) as (_ & _ & Hlast & _).
  - vm_compute. reflexivity.
  - exact Hlast.
Defined.


(** The subtractive attempt on an empty source list. *)
Lemma choice_never_on_empty_sequence_witness :
  delta (globals_of empty_attempt) = [] /\
  exists u,
    log empty_attempt.2 =
    log (empty_run 1).2
      ++ [Uniform 0 1 u; Choice 2 1; Randrange 0 1 0; Randrange 0 1 0].
Proof.
  destruct (choice_never_on_empty_sequence (RT := empty_runtime) 1 0 4 4 3)
    as (_ & _ & _ & Hempty).
  destruct (Hempty (globals_of (empty_run 1)) Continue
              (globals_of empty_attempt) (empty_run 1).2 empty_attempt.2)
    as (_ & Hd & Hlog).
  - lia.
  - vm_compute. reflexivity.
  - vm_compute. reflexivity.
  - vm_compute. reflexivity.
  - split; [exact Hd|exact Hlog].
Defined.

(** ** The main loop as a sequence of passes: refinement *)
Section PassSequenceProofs.
Context {G : Type} `{RT : Runtime G}.
Variables ipver addrmax numops : Z.

Lemma attempt_silent (st : globals) c st1 evs :
  attempt_of ipver addrmax st c st1 evs -> silent evs.
Proof.
  intros Hatt. destruct Hatt as
    [? ? ? Hsel Hb|? ? ? Hsel Hb|? ? ? Hsel Hb|? ? ? Hsel Hb|? ? ? Hsel Hb];
    (apply silent_app;
     [by destruct (selected_sound ipver _ _ _ Hsel) as (_ & Hs & _)
     |by eapply built_silent]).
Qed.

Lemma attempt_counter (st : globals) c st1 evs :
  attempt_of ipver addrmax st c st1 evs -> o st1 = o st.
Proof. by destruct 1. Qed.

Lemma while_loop_passes (n : nat) : forall st : globals,
  0 < addrmax ->
  does (while_loop ipver addrmax numops n st)
    (fun st' evs => exists k steps,
       passes_of ipver addrmax numops k st steps st' evs /\
       (k = n \/ (k < n)%nat /\ ~ o st' < numops)).
Proof.
  induction n as [|n IH]; intros st Hmax; simpl.
  - apply does_ret. exists O, []. split; [constructor|by left].
  - destruct (Z.ltb_spec (o st) numops) as [Hlt|Hge].
    + eapply does_bind; [by apply loop_body_does|].
      intros st1 e1 Hp. eapply does_mono; [by apply IH|].
      intros st' e2 (k & steps & Hps & Hk).
      assert (Hk' : S k = S n \/ (S k < S n)%nat /\ ~ o st' < numops)
        by (destruct Hk as [->|[? ?]]; [by left|right; split; [lia|done]]).
      destruct Hp as [st1 e1 Hatt|st1 e1 Hatt].
      * exists (S k), steps. split; [|done]. by eapply passes_rejected.
      * exists (S k), (step_of st1 :: steps). split; [|done].
        by eapply passes_accepted.
    + apply does_ret. exists O, []. split; [constructor|].
      right. split; [lia|lia].
Qed.

(** A run that returns is a sequence of passes from the initial globals,
    followed by the termination pair once the loop has been left. *)
Lemma run_passes (n : nat) (seed : Z) s st (w : world G) :
  run n seed ipver addrmax numops = (Ok (s, st), w) ->
  valid_params ipver addrmax numops /\
  exists k steps evs,
    passes_of ipver addrmax numops k initial_globals steps st evs /\
    (k = n \/ (k < n)%nat /\ ~ o st < numops) /\
    match s with
    | Running => log w = evs /\ o st < numops
    | Exited _ =>
        log w = evs ++ [Stdout ".x"; Stderr "received command for x .x"] /\
        ~ o st < numops
    end.
Proof.
  intros E. destruct (run_outcome _ _ _ _ _ _ _ E) as [Hv _].
  split; [done|]. destruct Hv as (Hip & Hmax & Hnum).
  unfold run, script_body in E.
  assert (negb (ipver =? 4) && negb (ipver =? 6) = false) as Hb
    by (destruct Hip as [-> | ->]; reflexivity).
  rewrite Hb in E.
  destruct (Z.ltb_spec addrmax 1); [lia|].
  destruct (Z.ltb_spec numops 1); [lia|].
  unfold bind in E.
  destruct (while_loop ipver addrmax numops n initial_globals
              (World (rt_seed seed) [])) as [[stl|e|] wl] eqn:El; try done.
  assert (Hpos : 0 < addrmax) by lia.
  destruct (does_run _ _ _ _ _ (while_loop_passes n initial_globals Hpos) El)
    as (evs & Elog & k & steps & Hps & Hk).
  simpl in Elog.
  destruct (Z.ltb_spec (o stl) numops) as [Hlt|Hge].
  - injection E as <- <- <-. exists k, steps, evs. by rewrite Elog.
  - unfold print_stdout, print_stderr, emit_event, ret in E. simpl in E.
    injection E as <- <- <-. exists k, steps, evs. simpl.
    rewrite Elog, <- app_assoc. simpl. split; [done|]. split; [done|].
    split; [done|lia].
Qed.

(** What every pass keeps, every state between passes has, and what every
    accepted attempt establishes, every step has. *)
Lemma passes_invariant (P : globals -> Prop) (Q : step -> Prop)
    k st steps st' evs :
  (forall st0 c st1 e,
     P st0 -> attempt_of ipver addrmax st0 c st1 e ->
     P st1 /\ P (counted st1) /\ (c = Fallthrough -> Q (step_of st1))) ->
  passes_of ipver addrmax numops k st steps st' evs ->
  P st -> P st' /\ Forall Q steps.
Proof.
  intros Hstep Hps. induction Hps as
    [st|k st st1 e1 steps st' e2 Hlt Hatt Hps IH
    |k st st1 e1 steps st' e2 Hlt Hatt Hps IH]; intros HP.
  - by split.
  - destruct (Hstep _ _ _ _ HP Hatt) as (H1 & _ & _). by apply IH.
  - destruct (Hstep _ _ _ _ HP Hatt) as (_ & H1 & HQ).
    destruct (IH H1) as [HP' HQs]. split; [done|].
    constructor; [by apply HQ|done].
Qed.

Lemma passes_printed k st steps st' evs :
  passes_of ipver addrmax numops k st steps st' evs ->
  printed ipver steps evs /\ o st' = o st + Z.of_nat (length steps).
Proof.
  induction 1 as
    [st|k st st1 e1 steps st' e2 Hlt Hatt Hps [IHp IHo]
    |k st st1 e1 steps st' e2 Hlt Hatt Hps [IHp IHo]].
  - split; [by split|simpl; lia].
  - split.
    + apply (printed_app ipver [] steps); [|done].
      by apply silent_printed, (attempt_silent _ _ _ _ Hatt).
    + rewrite IHo, (attempt_counter _ _ _ _ Hatt). done.
  - split.
    + apply (printed_app ipver [step_of st1] steps); [|done].
      apply (printed_app ipver [] [step_of st1]).
      * by apply silent_printed, (attempt_silent _ _ _ _ Hatt).
      * apply step_lines_printed.
    + rewrite IHo. simpl o. rewrite (attempt_counter _ _ _ _ Hatt).
      simpl length. lia.
Qed.

End PassSequenceProofs.

(** ** More properties of the generator *)
Section Startup.
Context {G : Type} `{RT : Runtime G}.

(** X1: the script body returns exactly when the parameters are valid.
    Otherwise it raises the Exception of the first check that fails (IP
    version, then [addrmax], then [numops]) with the log still empty.  It
    never raises anything else and no delta loop runs out of fuel. *)
Theorem run_returns_or_rejects_parameters
    (n : nat) (seed ipver addrmax numops : Z) :
  match run (G:=G) n seed ipver addrmax numops with
  | (Ok _, _) => valid_params ipver addrmax numops
  | (Raise (Exception msg), w) =>
      ~ valid_params ipver addrmax numops /\ log w = [] /\
      msg = (if negb (ipver =? 4) && negb (ipver =? 6)
             then "ipver must be 4 or 6"
             else if addrmax <? 1 then "addrmax must be positive"
             else "numops must be positive")
  | _ => False
  end.
Proof.
  destruct (valid_params_dec ipver addrmax numops) as [Hv|Hbad].
  - destruct (run_returns _ _ _ n seed Hv) as (r & w & E). by rewrite E.
  - unfold run, script_body, valid_params in *.
    destruct (negb (ipver =? 4) && negb (ipver =? 6)) eqn:Eip; [done|].
    destruct (Z.ltb_spec addrmax 1); [done|].
    destruct (Z.ltb_spec numops 1); [done|].
    exfalso. apply Hbad. split; [|lia].
    destruct (Z.eqb_spec ipver 4); [by left|].
    destruct (Z.eqb_spec ipver 6); [by right|done].
Qed.

End Startup.

Section Sequences.
Context {G : Type} `{RT : Runtime G}.
Variables ipver addrmax numops : Z.



Lemma list_difference_sorted (l k : list Z) :
  StronglySorted Z.le l -> StronglySorted Z.le (list_difference l k).
Proof.
  induction 1 as [|x l Hs IH Hall]; simpl; [constructor|].
  destruct (decide_rel elem_of x k); [done|].
  constructor; [done|]. by apply Forall_list_difference.
Qed.

Lemma sorted_sorted (l : list Z) : StronglySorted Z.le (sorted l).
Proof. unfold sorted. apply StronglySorted_merge_sort; apply _. Qed.

Lemma attempt_keeps_sorted (st : globals) c st1 evs :
  attempt_of ipver addrmax st c st1 evs ->
  StronglySorted Z.le (sources st) -> StronglySorted Z.le (sources st1).
Proof.
  intros Hatt Hs. destruct Hatt as
    [? ? ? _ _ _ Hsrc|? ? ? _ _ _ _ Hsrc|? ? ? _ _ _ _ Hsrc
    |? ? ? _ _ _ _ _ Hsrc|? ? ? _ _ _ _ Hsrc]; rewrite Hsrc;
    try done; try apply sorted_sorted.
  by apply list_difference_sorted.
Qed.

End Sequences.

Section SequenceProperties.
Context {G : Type} `{RT : Runtime G}.



End SequenceProperties.

Section Canonical.

Lemma elem_of_canonical (x : Z) (l : list Z) : x ∈ canonical l <-> x ∈ l.
Proof.
  unfold canonical, sorted.
  by rewrite merge_sort_Permutation, elem_of_elements, elem_of_list_to_set.
Qed.

Lemma canonical_NoDup (l : list Z) : NoDup (canonical l).
Proof.
  unfold canonical, sorted. rewrite merge_sort_Permutation.
  apply NoDup_elements.
Qed.

Lemma canonical_sorted (l : list Z) : StronglySorted Z.le (canonical l).
Proof. apply sorted_sorted. Qed.

(** A sorted list without duplicates is determined by its members. *)
Lemma canonical_unique (r l : list Z) :
  StronglySorted Z.le r -> NoDup r -> (forall x, x ∈ r <-> x ∈ l) ->
  r = canonical l.
Proof.
  intros Hs Hnd Hel.
  apply (StronglySorted_unique Z.le); [done|apply canonical_sorted|].
  apply NoDup_Permutation; [done|apply canonical_NoDup|].
  intros x. by rewrite elem_of_canonical.
Qed.

Lemma canonical_ext (l1 l2 : list Z) :
  (forall x, x ∈ l1 <-> x ∈ l2) -> canonical l1 = canonical l2.
Proof.
  intros Hel. apply canonical_unique;
    [apply canonical_sorted|apply canonical_NoDup|].
  intros x. by rewrite elem_of_canonical.
Qed.

Lemma sorted_NoDup (l : list Z) : NoDup (sorted l) <-> NoDup l.
Proof. unfold sorted. by rewrite merge_sort_Permutation. Qed.

Lemma elem_of_sorted (x : Z) (l : list Z) : x ∈ sorted l <-> x ∈ l.
Proof. unfold sorted. by rewrite merge_sort_Permutation. Qed.

End Canonical.

Section AttemptFacts.
Context {G : Type} `{RT : Runtime G}.
Variables ipver addrmax : Z.

Lemma attempt_rejected_sources (st st1 : globals) evs :
  attempt_of ipver addrmax st Continue st1 evs -> sources st1 = sources st.
Proof. by inversion 1. Qed.

(** An accepted attempt does to [sources], up to duplicates, what its
    command is documented to do. *)
Lemma attempt_replayed (st st1 : globals) evs :
  attempt_of ipver addrmax st Fallthrough st1 evs ->
  canonical (sources st1)
  = apply_command (canonical (sources st)) (command_of (step_of st1)).
Proof.
  intros Hatt. unfold apply_command, command_of, step_of. simpl.
  inversion Hatt as
    [? ? ? _ _ Hk Hsrc _|? ? ? _ _ Hk _ Hsrc _| |? ? ? _ _ Hk _ _ Hsrc _|];
    subst; rewrite Hk, Hsrc; simpl.
  - apply canonical_ext. intros x. apply elem_of_sorted.
  - symmetry. apply canonical_unique.
    + apply list_difference_sorted, canonical_sorted.
    + apply NoDup_list_difference, canonical_NoDup.
    + intros x. by rewrite !list_elem_of_difference, elem_of_canonical.
  - transitivity (canonical (sources st ++ delta st1)).
    + apply canonical_ext. intros x.
      by rewrite elem_of_sorted_union, elem_of_app.
    + unfold union_set. fold (canonical (canonical (sources st) ++ delta st1)).
      apply canonical_ext. intros x.
      by rewrite !elem_of_app, elem_of_canonical.
Qed.

(** When an accepted attempt leaves [sources] without duplicates. *)
Lemma attempt_NoDup (st st1 : globals) evs :
  attempt_of ipver addrmax st Fallthrough st1 evs ->
  (deltype st1 = "" -> (NoDup (sources st1) <-> NoDup (delta st1))) /\
  (deltype st1 = "+" -> NoDup (sources st1)) /\
  (deltype st1 = "-" -> NoDup (sources st) -> NoDup (sources st1)).
Proof.
  intros Hatt. inversion Hatt as
    [? ? ? _ _ Hk Hsrc _|? ? ? _ _ Hk _ Hsrc _| |? ? ? _ _ Hk _ _ Hsrc _|];
    subst; rewrite Hk, Hsrc; (split; [|split]); try done; intros _.
  - apply sorted_NoDup.
  - apply NoDup_list_difference.
  - apply sorted_NoDup, NoDup_elements.
Qed.

(** Where the members of [sources] after an attempt come from. *)
Lemma attempt_members (st : globals) c st1 evs :
  attempt_of ipver addrmax st c st1 evs ->
  forall x, x ∈ sources st1 ->
    x ∈ sources st \/
    (c = Fallthrough /\ deltype st1 <> "-" /\ x ∈ delta st1).
Proof.
  intros Hatt x. destruct Hatt as
    [? ? ? _ _ Hk Hsrc _|? ? ? _ _ Hk _ Hsrc _|? ? ? _ _ Hk _ Hsrc _
    |? ? ? _ _ Hk _ _ Hsrc _|? ? ? _ _ Hk _ Hsrc _]; rewrite Hsrc, Hk.
  - rewrite elem_of_sorted. by right.
  - rewrite list_elem_of_difference. intros [? _]. by left.
  - by left.
  - rewrite elem_of_sorted_union. intros [?|?]; [by left|by right].
  - by left.
Qed.

(** With [addrmax = 1] or an empty [sources] the loops build nothing. *)
Lemma built_nothing (bound : Z) pool p prev prev' dl' evs :
  bound <= 1 ->
  built ipver bound pool p prev [] prev' dl' evs -> dl' = [].
Proof.
  intros Hb Hbuilt. inversion Hbuilt as [|? ? ? ? ? ? ? ? Ht]; subst; [done|].
  simpl in Ht. inversion Ht; lia.
Qed.

End AttemptFacts.

Section TranscriptProperties.
Context {G : Type} `{RT : Runtime G}.

Lemma attempt_kind (ipver addrmax : Z) (st : globals) c st1 evs :
  attempt_of ipver addrmax st c st1 evs -> kind_marker (deltype st1).
Proof.
  unfold kind_marker.
  destruct 1 as [? ? ? _ _ Hk|? ? ? _ _ Hk|? ? ? _ _ Hk|? ? ? _ _ Hk
                |? ? ? _ _ Hk]; rewrite Hk; auto.
Qed.

(** The passes of a run and the lines they printed. *)
Lemma run_transcript
    (n : nat) (seed ipver addrmax numops : Z) s st (w : world G) :
  run n seed ipver addrmax numops = (Ok (s, st), w) ->
  valid_params ipver addrmax numops /\
  exists k steps evs,
    passes_of ipver addrmax numops k initial_globals steps st evs /\
    stdout_of (log w)
    = flat_map (primary_lines ipver) steps ++ closing_stdout s /\
    stderr_of (log w)
    = flat_map (oracle_lines ipver) steps ++ closing_stderr s /\
    o st = Z.of_nat (length steps).
Proof.
  intros E.
  destruct (run_passes _ _ _ _ _ _ _ _ E)
    as (Hv & k & steps & evs & Hps & _ & Hlog).
  split; [done|]. exists k, steps, evs. split; [done|].
  destruct (passes_printed _ _ _ _ _ _ _ _ Hps) as [[Hout Herr] Ho].
  simpl in Ho.
  destruct s; destruct Hlog as [-> _]; simpl.
  - by rewrite !app_nil_r.
  - by rewrite stdout_of_app, stderr_of_app, Hout, Herr.
Qed.

Lemma passes_replayed (ipver addrmax numops : Z) k st steps st' evs :
  passes_of ipver addrmax numops k st steps st' evs ->
  map (fun s => canonical (step_sources s)) steps
  = replay (canonical (sources st)) (map command_of steps).
Proof.
  induction 1 as
    [st|k st st1 e1 steps st' e2 Hlt Hatt Hps IH
    |k st st1 e1 steps st' e2 Hlt Hatt Hps IH].
  - done.
  - by rewrite <- (attempt_rejected_sources _ _ _ _ _ Hatt).
  - simpl. rewrite <- (attempt_replayed _ _ _ _ _ Hatt). by f_equal.
Qed.

(** X4: replaying the printed commands from an empty source list, using
    the documented meaning of each command, gives after every step the
    members of the source list the oracle stream declares for it: the two
    agree once duplicates are removed from the declared list. *)
Theorem replay_agrees_up_to_duplicates
    (n : nat) (seed ipver addrmax numops : Z) s st (w : world G) :
  run n seed ipver addrmax numops = (Ok (s, st), w) ->
  exists steps,
    stdout_of (log w)
    = flat_map (primary_lines ipver) steps ++ closing_stdout s /\
    stderr_of (log w)
    = flat_map (oracle_lines ipver) steps ++ closing_stderr s /\
    map (fun s => canonical (step_sources s)) steps
    = replay [] (map command_of steps).
Proof.
  intros E. destruct (run_transcript _ _ _ _ _ _ _ _ E)
    as (_ & k & steps & evs & Hps & Hout & Herr & _).
  exists steps. split; [done|]. split; [done|].
  by rewrite (passes_replayed _ _ _ _ _ _ _ _ Hps).
Qed.

(** X5: an accepted attempt made when [sources] is sorted and without
    duplicates sets [sources] to exactly what its command is documented to
    do to it, provided that, if it is an absolute set, its delta list
    names no address twice. *)
Theorem accepted_attempt_matches_command
    (ipver addrmax : Z) (st : globals) (w : world G) st1 (w1 : world G) :
  0 < addrmax ->
  choose_and_build ipver addrmax st w = (Ok (Fallthrough, st1), w1) ->
  StronglySorted Z.le (sources st) -> NoDup (sources st) ->
  (deltype st1 = "" -> NoDup (delta st1)) ->
  sources st1 = apply_command (sources st) (deltype st1, delta st1).
Proof.
  intros Hpos E Hs Hnd Habsolute.
  destruct (does_run _ _ _ _ _ (choose_and_build_does _ _ st Hpos) E)
    as (evs & _ & Hatt).
  simpl in Hatt.
  assert (Hs1 : StronglySorted Z.le (sources st1))
    by (by eapply attempt_keeps_sorted).
  assert (Hnd1 : NoDup (sources st1)).
  { destruct (attempt_NoDup _ _ _ _ _ Hatt) as (Habs & Hadd & Hsub).
    destruct (attempt_kind _ _ _ _ _ _ Hatt) as [Hk|[Hk|Hk]]; auto.
    by apply Habs, Habsolute. }
  rewrite (canonical_unique (sources st1) (sources st1)) at 1 by done.
  rewrite (attempt_replayed _ _ _ _ _ Hatt).
  by rewrite <- (canonical_unique (sources st) (sources st)).
Qed.

(** X6: an additive or subtractive command is never printed with an empty
    address list: only an absolute set can carry the sentinel. *)
Theorem no_empty_delta_commands
    (n : nat) (seed ipver addrmax numops : Z) s st (w : world G) :
  run n seed ipver addrmax numops = (Ok (s, st), w) ->
  exists steps,
    stdout_of (log w)
    = flat_map (primary_lines ipver) steps ++ closing_stdout s /\
    stderr_of (log w)
    = flat_map (oracle_lines ipver) steps ++ closing_stderr s /\
    Forall (fun s => step_kind s <> "" -> step_delta s <> []) steps.
Proof.
  intros E. destruct (run_transcript _ _ _ _ _ _ _ _ E)
    as (_ & k & steps & evs & Hps & Hout & Herr & _).
  exists steps. split; [done|]. split; [done|].
  apply (passes_invariant ipver addrmax numops (fun _ => True)
           (fun s => step_kind s <> "" -> step_delta s <> [])
           _ _ _ _ _) with (2 := Hps); [|done].
  intros st0 c st1 e _ Hatt. split; [done|]. split; [done|]. intros ->.
  unfold step_of. simpl.
  inversion Hatt; subst; try done.
Qed.

(** X7: with [addrmax = 1] every delta list is empty: [sources] stays
    empty, every additive and subtractive attempt is rejected, and every
    step printed is the empty absolute set, whose command line is [-E-]
    and whose declared source setting is [-E-]. *)
Theorem addrmax_one_prints_empty_sets
    (n : nat) (seed ipver numops : Z) s st (w : world G) :
  run n seed ipver 1 numops = (Ok (s, st), w) ->
  sources st = [] /\
  stdout_of (log w)
  = mjoin (replicate (Z.to_nat (o st)) ["-E-"; "?E"]) ++ closing_stdout s /\
  stderr_of (log w)
  = mjoin (replicate (Z.to_nat (o st))
             [ "received command for x -E-"; "received command for x ?E";
               "note: x source setting: -E-" ]) ++ closing_stderr s.
Proof.
  intros E. destruct (run_transcript _ _ _ _ _ _ _ _ E)
    as (_ & k & steps & evs & Hps & Hout & Herr & Ho).
  assert (Hinv : sources st = [] /\ Forall (fun s => s = Step "" [] []) steps).
  { apply (passes_invariant ipver 1 numops (fun st => sources st = [])
             (fun s => s = Step "" [] []) _ _ _ _ _) with (2 := Hps); [|done].
    intros st0 c st1 e Hsrc0 Hatt.
    assert (Hdl : delta st1 = []).
    { inversion Hatt as [? ? ? _ Hb|? ? ? _ Hb|? ? ? _ Hb|? ? ? _ Hb
                        |? ? ? _ Hb]; subst;
        try (rewrite Hsrc0 in Hb; change (subtractive_bound []) with 1 in Hb);
        by eapply built_nothing in Hb. }
    destruct Hatt as
      [? ? ? _ _ Hk Hsrc _|? ? ? _ _ _ Hne _ _|? ? ? _ _ _ _ Hsrc _
      |? ? ? _ _ _ Hne _ _ _|? ? ? _ _ _ _ Hsrc _]; try done;
      try (simpl; rewrite Hsrc, Hsrc0; by repeat split).
    rewrite Hdl in Hsrc. unfold step_of. simpl.
    rewrite Hsrc, Hk, Hdl. by repeat split. }
  destruct Hinv as [Hsrc Hall]. split; [done|].
  rewrite Hout, Herr, Ho, Nat2Z.id. clear -Hall.
  induction Hall as [|s0 steps -> _ [IH1 IH2]]; [done|].
  simpl. split; [by rewrite IH1|by rewrite IH2].
Qed.

(** X8: every member of [sources] was named in the delta list of a printed
    absolute or additive command. *)
Theorem sources_come_from_printed_commands
    (n : nat) (seed ipver addrmax numops : Z) s st (w : world G) :
  run n seed ipver addrmax numops = (Ok (s, st), w) ->
  exists steps,
    stdout_of (log w)
    = flat_map (primary_lines ipver) steps ++ closing_stdout s /\
    forall x, x ∈ sources st ->
      exists c, c ∈ steps /\ step_kind c <> "-" /\ x ∈ step_delta c.
Proof.
  intros E. destruct (run_transcript _ _ _ _ _ _ _ _ E)
    as (_ & k & steps & evs & Hps & Hout & _ & _).
  exists steps. split; [done|].
  assert (Hgen : forall x, x ∈ sources st ->
    x ∈ sources initial_globals \/
    exists c, c ∈ steps /\ step_kind c <> "-" /\ x ∈ step_delta c).
  { clear -Hps. induction Hps as
      [st|k st st1 e1 steps st' e2 Hlt Hatt Hps IH
      |k st st1 e1 steps st' e2 Hlt Hatt Hps IH]; intros x Hx.
    - by left.
    - destruct (IH x Hx) as [Hin|Hin]; [|by right].
      destruct (attempt_members _ _ _ _ _ _ Hatt x Hin) as [?|[? _]];
        [by left|done].
    - destruct (IH x Hx) as [Hin|(c & Hc & Hk & Hd)].
      + destruct (attempt_members _ _ _ _ _ _ Hatt x Hin)
          as [?|(_ & Hk & Hd)]; [by left|].
        right. exists (step_of st1). split; [by left|done].
      + right. exists c. split; [by right|done]. }
  intros x Hx. destruct (Hgen x Hx) as [Hin|?]; [|done].
  by apply elem_of_nil in Hin.
Qed.

(** X9: an accepted absolute set leaves [sources] without duplicates
    exactly when its delta list has none; an accepted additive delta
    always leaves it without duplicates; an accepted subtractive delta
    keeps it without duplicates if it was. *)
Theorem duplicates_come_from_absolute_sets
    (ipver addrmax : Z) (st : globals) (w : world G) st1 (w1 : world G) :
  0 < addrmax ->
  choose_and_build ipver addrmax st w = (Ok (Fallthrough, st1), w1) ->
  (deltype st1 = "" -> (NoDup (sources st1) <-> NoDup (delta st1))) /\
  (deltype st1 = "+" -> NoDup (sources st1)) /\
  (deltype st1 = "-" -> NoDup (sources st) -> NoDup (sources st1)).
Proof.
  intros Hpos E.
  destruct (does_run _ _ _ _ _ (choose_and_build_does _ _ st Hpos) E)
    as (evs & _ & Hatt).
  by eapply attempt_NoDup.
Qed.

End TranscriptProperties.

Section SynthesizerEdges.
Context {G : Type} `{RT : Runtime G}.

Lemma mkbits_loop_edges (n : nat) : forall (i : Z) (d : Q) (b : Z),
  0 <= i ->
  does (mkbits_loop n i d b)
    (fun r _ =>
       ((d <= 0)%Q -> r = b) /\
       ((1 < d)%Q -> r = b + (2 ^ (i + Z.of_nat n) - 2 ^ i))).
Proof.
  induction n as [|n IH]; intros i d b Hi; simpl.
  - apply does_ret. split; [done|]. intros _. rewrite Z.add_0_r. lia.
  - eapply does_bind; [apply does_uniform|].
    intros u e1 [-> Hu]. destruct Hu as [Hu0 Hu1]; [done|].
    eapply does_mono; [apply IH; lia|].
    intros r e2 [Hlow Hhigh]. split.
    + intros Hd. rewrite (Hlow Hd).
      assert (Qltb u d = false) as ->; [|done].
      apply Qltb_nlt. apply Qle_not_lt. by eapply Qle_trans.
    + intros Hd. rewrite (Hhigh Hd).
      assert (Qltb u d = true) as ->
        by (apply Qltb_lt; by eapply Qle_lt_trans).
      rewrite Z.shiftl_1_l.
      replace (i + Z.of_nat (S n)) with (i + 1 + Z.of_nat n) by lia.
      rewrite (Z.pow_add_r 2 i 1), Z.pow_1_r by lia. lia.
Qed.

Lemma does_and {A} (m : M G A) (Q1 Q2 : A -> list event -> Prop) :
  does m Q1 -> does m Q2 -> does m (fun x evs => Q1 x evs /\ Q2 x evs).
Proof.
  intros H1 H2 w.
  destruct (H1 w) as (x1 & g1 & e1 & E1 & HQ1).
  destruct (H2 w) as (x2 & g2 & e2 & E2 & HQ2).
  rewrite E1 in E2. injection E2 as <- <- He.
  apply app_inv_head in He as <-. by exists x1, g1, e1.
Qed.

(** X10: [mkbits(l, d)] always returns, after exactly [l] draws from
    [0, 1], a number of at most [l] bits.  With a density of 0 or less no
    bit is set; with a density above 1 all [l] bits are. *)
Theorem mkbits_range_and_edges (l : nat) (d : Q) (w : world G) :
  exists b g evs,
    mkbits l d w = (Ok b, World g (log w ++ evs)) /\
    0 <= b < 2 ^ Z.of_nat l /\
    length evs = l /\ Forall bit_draw evs /\
    ((d <= 0)%Q -> b = 0) /\
    ((1 < d)%Q -> b = 2 ^ Z.of_nat l - 1).
Proof.
  destruct (does_and _ _ _ (mkbits_loop_does l 0 d 0)
              (mkbits_loop_edges l 0 d 0 ltac:(lia)) w)
    as (b & g & evs & E & (Hdraw & Hlen & Hrange) & Hlow & Hhigh).
  exists b, g, evs. split; [exact E|].
  split; [rewrite <- (Z.add_0_l (Z.of_nat l)); apply Hrange; simpl; lia|].
  split; [done|]. split; [done|].
  split; [done|]. intros Hd. rewrite (Hhigh Hd).
  rewrite (Z.add_0_l (Z.of_nat l)), Z.pow_0_r. lia.
Qed.

(** X11: with a density of 0 or less [mkaddr] returns the address it was
    given, or the base network when given none. *)
Theorem mkaddr_density_zero_returns_base
    (ipver : Z) (prev : option Z) (d : Q) (w : world G) :
  (d <= 0)%Q ->
  exists w',
    mkaddr ipver prev d w
    = (Ok (default (if ipver =? 4 then 0x0a000000
                    else 0xfd05aaaa000000000000000000000000) prev), w').
Proof.
  intros Hd. unfold mkaddr, bind.
  assert (Hbits : forall l, exists w1, mkbits l d w = (Ok 0, w1)).
  { intros l. destruct (mkbits_range_and_edges l d w)
      as (b & g & evs & E & _ & _ & _ & Hlow & _).
    rewrite (Hlow Hd) in E. by eexists. }
  destruct (ipver =? 4).
  - destruct (Hbits 24%nat) as [w1 ->]. simpl. rewrite Z.lxor_0_r.
    destruct prev; by eexists.
  - destruct (Hbits 96%nat) as [w1 ->]. simpl. rewrite Z.lxor_0_r.
    destruct prev; by eexists.
Qed.

End SynthesizerEdges.

Section AddressBytes.
Context {G : Type} `{RT : Runtime G}.

Lemma byte_range (x : Z) : 0 <= Z.land x 255 <= 255.
Proof.
  change 255 with (Z.ones 8) at 1 2. rewrite Z.land_ones by lia.
  pose proof (Z.mod_pos_bound x (2 ^ 8)). lia.
Qed.

Lemma byte_testbit (x i r : Z) :
  0 <= i -> 0 <= r < 8 ->
  Z.testbit (Z.land (Z.shiftr x i) 255) r = Z.testbit x (r + i).
Proof.
  intros Hi Hr. rewrite Z.land_spec, Z.shiftr_spec by lia.
  change 255 with (Z.ones 8). rewrite Z.ones_spec_low by lia.
  apply andb_true_r.
Qed.

Lemma byte_of_mod (a width i : Z) :
  0 <= i -> i + 8 <= width ->
  Z.land (Z.shiftr (a mod 2 ^ width) i) 255 = Z.land (Z.shiftr a i) 255.
Proof.
  intros Hi Hw. apply Z.bits_inj'. intros r Hr.
  destruct (Z.lt_ge_cases r 8).
  - rewrite !byte_testbit by lia. apply Z.mod_pow2_bits_low. lia.
  - rewrite !Z.land_spec. change 255 with (Z.ones 8).
    rewrite Z.ones_spec_high by lia. by rewrite !andb_false_r.
Qed.

Lemma map_eq_elem {A B} (f g : A -> B) (l : list A) :
  map f l = map g l -> forall x, x ∈ l -> f x = g x.
Proof.
  induction l as [|y l IH]; intros E x Hx; [by apply elem_of_nil in Hx|].
  simpl in E. injection E as Ey El.
  apply elem_of_cons in Hx as [->|Hx]; [done|by apply IH].
Qed.

(** X12: for every integer [a], in range or not, [addrout(a)] hands
    [inet_ntop] a list of 4 (IPv4) or 16 (IPv6) numbers, each between 0 and
    255: [bytes(parts)] cannot raise and the packed address has the length
    of its family. *)
Theorem addrout_bytes_well_formed (ipver a : Z) :
  addrout ipver a
  = inet_ntop (if ipver =? 4 then AF_INET else AF_INET6)
      (addr_bytes ipver a) /\
  length (addr_bytes ipver a) = (if ipver =? 4 then 4%nat else 16%nat) /\
  Forall (fun b => 0 <= b <= 255) (addr_bytes ipver a).
Proof.
  unfold addrout, addr_bytes. destruct (ipver =? 4);
    (split; [done|]); (split; [done|]);
    apply Forall_fmap, Forall_forall; intros i _; apply byte_range.
Qed.

(** X13: [addrout] looks only at the low 32 (IPv4) or 128 (IPv6) bits of
    its argument: an address out of that range, negative ones included,
    is rendered as the address it is congruent to. *)
Theorem addrout_truncates (ipver a : Z) :
  addr_bytes ipver (a mod 2 ^ addr_width ipver) = addr_bytes ipver a /\
  addrout ipver (a mod 2 ^ addr_width ipver) = addrout ipver a.
Proof.
  assert (Hb : addr_bytes ipver (a mod 2 ^ addr_width ipver)
               = addr_bytes ipver a).
  { unfold addr_bytes, addr_width. destruct (ipver =? 4); simpl map;
      repeat (apply (f_equal2 cons); [apply byte_of_mod; lia|]); done. }
  split; [done|].
  destruct (addrout_bytes_well_formed ipver a) as [-> _].
  destruct (addrout_bytes_well_formed ipver (a mod 2 ^ addr_width ipver))
    as [-> _].
  by rewrite Hb.
Qed.

(** X14: two addresses within the 32 (IPv4) or 128 (IPv6) bits of their
    family that [addrout] turns into the same bytes are the same
    address. *)
Theorem addr_bytes_injective (ipver a b : Z) :
  0 <= a < 2 ^ addr_width ipver ->
  0 <= b < 2 ^ addr_width ipver ->
  addr_bytes ipver a = addr_bytes ipver b -> a = b.
Proof.
  intros Ha Hb E.
  assert (Hbyte : forall i, 0 <= i -> i + 8 <= addr_width ipver ->
    (i mod 8 = 0) ->
    Z.land (Z.shiftr a i) 255 = Z.land (Z.shiftr b i) 255).
  { intros i Hi Hw Hm. clear Ha Hb.
    pose proof (Z.div_mod i 8 ltac:(lia)) as Hdm. rewrite Hm in Hdm.
    set (q := i / 8) in *. clearbody q. clear Hm. revert E Hw.
    unfold addr_bytes, addr_width.
    destruct (ipver =? 4); intros E Hw;
      (eapply (map_eq_elem _ _ _ E i));
      repeat rewrite elem_of_cons; rewrite elem_of_nil; lia. }
  assert (Hw : 0 <= addr_width ipver)
    by (unfold addr_width; destruct (ipver =? 4); lia).
  apply Z.bits_inj'. intros n Hn.
  destruct (Z.lt_ge_cases n (addr_width ipver)) as [Hlt|Hge].
  - pose proof (Hbyte (8 * (n / 8))) as Hq.
    assert (Hr : 0 <= n mod 8 < 8) by (apply Z.mod_pos_bound; lia).
    assert (Hdiv : n = 8 * (n / 8) + n mod 8) by (apply Z.div_mod; lia).
    assert (Hw8 : addr_width ipver mod 8 = 0)
      by (unfold addr_width; destruct (ipver =? 4); reflexivity).
    assert (Hqw : 8 * (n / 8) + 8 <= addr_width ipver).
    { pose proof (Z.div_mod (addr_width ipver) 8 ltac:(lia)).
      assert (n / 8 < addr_width ipver / 8); [|lia].
      apply Z.div_lt_upper_bound; lia. }
    assert (Hmod : (8 * (n / 8)) mod 8 = 0)
      by (rewrite Z.mul_comm; apply Z.mod_mul; lia).
    specialize (Hq ltac:(lia) Hqw Hmod).
    apply (f_equal (fun x => Z.testbit x (n mod 8))) in Hq.
    rewrite !byte_testbit in Hq by lia.
    by replace (n mod 8 + 8 * (n / 8)) with n in Hq by lia.
  - rewrite <- (Z.mod_small a (2 ^ addr_width ipver)) by lia.
    rewrite <- (Z.mod_small b (2 ^ addr_width ipver)) by lia.
    by rewrite !Z.mod_pow2_bits_high by lia.
Qed.

End AddressBytes.

(** * The address list generator *)

Section AddrlistProofs.

Lemma separator_inj (c : Ascii.ascii) (s1 s2 t1 t2 : string) :
  char_free c s1 -> char_free c s2 ->
  s1 +:+ String c t1 = s2 +:+ String c t2 -> s1 = s2 /\ t1 = t2.
Proof.
  revert s2. induction s1 as [|a s1 IH]; intros [|b s2]; simpl.
  - intros _ _ E. by injection E.
  - intros _ [Hb _] E. injection E as E1 _. congruence.
  - intros [Ha _] _ E. injection E as E1 _. congruence.
  - intros [_ H1] [_ H2] E. injection E as -> E.
    destruct (IH _ H1 H2 E) as [-> ->]. done.
Qed.

Lemma prefix_inj (p s t : string) : p +:+ s = p +:+ t -> s = t.
Proof. induction p; simpl; [done|]. intros E. injection E. auto. Qed.

Lemma pretty_N_char_free (c : Ascii.ascii) :
  (forall d, (d < 10)%N -> pretty_N_char d <> c) ->
  forall x s, char_free c s -> char_free c (pretty_N_go x s).
Proof.
  intros Hc x. induction (N.lt_wf_0 x) as [x _ IH]. intros s Hs.
  destruct (decide (x = 0%N)) as [->|Hx]; [by rewrite pretty_N_go_0|].
  rewrite pretty_N_go_step by lia. apply IH.
  - apply N.div_lt; lia.
  - split; [|done]. apply Hc. by apply N.mod_lt.
Qed.

Lemma pretty_Z_dot_free (z : Z) : 0 < z -> char_free "."%char (pretty z).
Proof.
  destruct z as [|p|p]; try lia. intros _.
  unfold pretty, pretty_Z, pretty, pretty_positive, pretty, pretty_N.
  destruct (decide _); [done|].
  apply pretty_N_char_free; [|done].
  intros d _. unfold pretty_N_char. by repeat case_match.
Qed.

Lemma hex_digits_colon_free (d : Hexadecimal.uint) :
  char_free ":"%char (NilEmpty.string_of_uint d).
Proof. induction d; simpl; try done; by split. Qed.

Lemma hex_colon_free (n : Z) : char_free ":"%char (Tape.hex n).
Proof.
  unfold Tape.hex, NilZero.string_of_uint.
  destruct (N.to_hex_uint _) eqn:E; try apply hex_digits_colon_free.
  by simpl.
Qed.

Lemma hex_inj (m n : Z) : 0 <= m -> 0 <= n -> Tape.hex m = Tape.hex n -> m = n.
Proof.
  intros Hm Hn E. unfold Tape.hex in E.
  assert (Hnil : forall k, N.to_hex_uint k <> Hexadecimal.Nil).
  { intros k E'. pose proof (HexadecimalN.Unsigned.of_to k) as Hk.
    rewrite E' in Hk. simpl in Hk. subst k. discriminate E'. }
  pose proof (NilZero.usu _ (Hnil (Z.to_N m))) as E1.
  pose proof (NilZero.usu _ (Hnil (Z.to_N n))) as E2.
  rewrite E in E1. rewrite E1 in E2. injection E2 as E2.
  apply HexadecimalN.Unsigned.to_uint_inj in E2. lia.
Qed.

(** Two indices less than [m1 * m2] apart with the same remainders modulo
    the coprime [m1] and [m2] are equal. *)
Lemma remainders_determine (m1 m2 i j : Z) :
  0 < m1 -> 0 < m2 -> Z.gcd m1 m2 = 1 ->
  0 <= i < m1 * m2 -> 0 <= j < m1 * m2 ->
  i mod m1 = j mod m1 -> i mod m2 = j mod m2 -> i = j.
Proof.
  intros H1 H2 Hg Hi Hj E1 E2.
  assert (D1 : (m1 | i - j)).
  { apply Z.mod_divide; [lia|]. rewrite Zminus_mod, E1, Z.sub_diag. apply Z.mod_0_l. lia. }
  assert (D2 : (m2 | i - j)).
  { apply Z.mod_divide; [lia|]. rewrite Zminus_mod, E2, Z.sub_diag. apply Z.mod_0_l. lia. }
  destruct D1 as [k Hk]. rewrite Hk in D2.
  rewrite Z.mul_comm in D2.
  apply Z.gauss in D2; [|by rewrite Z.gcd_comm].
  destruct D2 as [k' ->].
  assert (Hpos : 0 < m1 * m2) by lia.
  replace (k' * m2 * m1) with (k' * (m1 * m2)) in Hk by ring.
  assert (k' = 0) by nia. subst k'. lia.
Qed.

Lemma address_inj (ipv i j : Z) :
  0 <= i < Addrlist.period ipv -> 0 <= j < Addrlist.period ipv ->
  Addrlist.address ipv i = Addrlist.address ipv j -> i = j.
Proof.
  unfold Addrlist.period, Addrlist.address.
  destruct (ipv =? 4); intros Hi Hj E.
  - apply prefix_inj in E.
    pose proof (Z.mod_pos_bound i 251 ltac:(lia)).
    pose proof (Z.mod_pos_bound j 251 ltac:(lia)).
    pose proof (Z.mod_pos_bound i 241 ltac:(lia)).
    pose proof (Z.mod_pos_bound j 241 ltac:(lia)).
    apply separator_inj in E as [E1 E2]; try (apply pretty_Z_dot_free; lia).
    apply (inj pretty) in E1. apply (inj pretty) in E2.
    apply (remainders_determine 251 241); try done; lia.
  - apply prefix_inj in E.
    pose proof (Z.mod_pos_bound i 65521 ltac:(lia)).
    pose proof (Z.mod_pos_bound j 65521 ltac:(lia)).
    pose proof (Z.mod_pos_bound i 65519 ltac:(lia)).
    pose proof (Z.mod_pos_bound j 65519 ltac:(lia)).
    apply separator_inj in E as [E1 E2]; try apply hex_colon_free.
    apply hex_inj in E1; [|lia..]. apply hex_inj in E2; [|lia..].
    apply (remainders_determine 65521 65519); try done; lia.
Qed.

Lemma address_periodic (ipv i : Z) :
  Addrlist.address ipv (i + Addrlist.period ipv) = Addrlist.address ipv i.
Proof.
  unfold Addrlist.period, Addrlist.address. destruct (ipv =? 4).
  - rewrite (Z.mul_comm 251 241) at 1. by rewrite !Z_mod_plus_full.
  - rewrite (Z.mul_comm 65521 65519) at 1. by rewrite !Z_mod_plus_full.
Qed.

(** X15: the address list has [numaddrs] entries (none for a negative
    count), and they are pairwise distinct exactly when [numaddrs] is at
    most 251 * 241 for IPv4 and 65521 * 65519 otherwise: from that index
    on the addresses repeat. *)
Theorem addrlist_distinct_up_to_period (ipv numaddrs : Z) :
  length (Addrlist.addrs ipv numaddrs) = Z.to_nat numaddrs /\
  (NoDup (Addrlist.addrs ipv numaddrs) <-> numaddrs <= Addrlist.period ipv).
Proof.
  unfold Addrlist.addrs. split; [by rewrite length_map, length_seqZ|].
  assert (Hp : 0 < Addrlist.period ipv).
  { unfold Addrlist.period. destruct (ipv =? 4); lia. }
  split.
  - intros Hnd. destruct (decide (numaddrs <= Addrlist.period ipv)) as [|Hgt];
      [done|exfalso].
    set (p := Z.to_nat (Addrlist.period ipv)).
    assert (E : O = p); [|lia].
    apply (proj1 (NoDup_alt _) Hnd O p (Addrlist.address ipv 0)).
    + change (map ?f ?l) with (f <$> l).
      rewrite list_lookup_fmap, lookup_seqZ_lt by lia. done.
    + change (map ?f ?l) with (f <$> l).
      rewrite list_lookup_fmap, lookup_seqZ_lt by lia. simpl. f_equal.
      rewrite <- (address_periodic ipv 0). f_equal. lia.
  - intros Hle. apply NoDup_fmap_2_strong; [|apply NoDup_seqZ].
    intros x y Hx%elem_of_seqZ Hy%elem_of_seqZ. apply address_inj; lia.
Qed.

End AddrlistProofs.

(** * The report checker *)

Section NamerunnerProofs.

Import Namerunner.

Variable repr : string -> string.
Variable max_str_digits : Z.

Lemma strip_prefix_Some (p s r : string) :
  strip_prefix p s = Some r <-> s = p +:+ r.
Proof.
  revert s. induction p as [|a p IH]; intros s; simpl.
  - split; [by intros [= ->]|by intros ->].
  - destruct s as [|b s]; [done|].
    destruct (Ascii.eqb_spec a b) as [->|Hne].
    + rewrite IH. split; [by intros ->|by intros [= ->]].
    + split; [done|]. intros [= -> _]. done.
Qed.

Lemma exit_line_not_other (line : string) :
  re_exit line = true -> re_expect line = None /\ re_usage line = None.
Proof.
  unfold re_exit. intros H.
  apply bool_decide_eq_true in H as [r ->%strip_prefix_Some]. done.
Qed.

Lemma echo_not_complaint (line : string) :
  Forall (fun l => complaint l = false) (echo line).
Proof.
  unfold echo. destruct line as [|c line]; [constructor|].
  destruct (Ascii.eqb c "#") eqn:E; [|constructor].
  apply Ascii.eqb_eq in E as ->. by repeat constructor.
Qed.

Lemma filter_none {A} (f : A -> bool) (l : list A) :
  Forall (fun x => f x = false) l -> List.filter f l = [].
Proof. induction 1 as [|x l Hx _ IH]; simpl; [done|]. by rewrite Hx. Qed.

Lemma exit_complaint_is_complaint (st : state) (text : string) :
  exit_complaint st = Some text -> complaint text = true.
Proof.
  unfold exit_complaint. repeat case_match; intros [= <-]; done.
Qed.

Lemma exit_complaint_none (st : state) :
  exit_complaint st = None <->
  st_rx st = (st_dir st <=? 0) /\ st_tx st = (0 <=? st_dir st).
Proof.
  unfold exit_complaint.
  destruct (st_rx st), (st_tx st), (Z.leb_spec (st_dir st) 0),
    (Z.leb_spec 0 (st_dir st)), (Z.geb_spec (st_dir st) 0),
    (Z.gtb_spec (st_dir st) 0), (Z.ltb_spec (st_dir st) 0);
    simpl; try lia; split; try done; intros [? ?]; done.
Qed.

Lemma body_counts (line : string) (st st' : state) (printed : list string) :
  complaint line = false ->
  body repr max_str_digits line st = Some (st', printed) ->
  cnt_prob st' = cnt_prob st + Z.of_nat (length (List.filter complaint printed)) /\
  cnt_ok st <= cnt_ok st' /\
  (cnt_ok st' - cnt_ok st) + (cnt_prob st' - cnt_prob st) <= 1.
Proof.
  intros Hline. unfold body.
  pose proof (filter_none _ _ (echo_not_complaint line)) as Hecho.
  repeat case_match; intros [= <- <-]; simpl;
    rewrite ?List.filter_app, ?Hecho; simpl; rewrite ?Hline; simpl;
    try (erewrite exit_complaint_is_complaint by eassumption); simpl; lia.
Qed.

Lemma loop_counts (lines : list string) (st st' : state)
    (out out' : list string) :
  Forall (fun l => complaint l = false) lines ->
  loop repr max_str_digits lines st out = inl (st', out') ->
  exists printed,
    out' = out ++ printed /\
    cnt_prob st' = cnt_prob st + Z.of_nat (length (List.filter complaint printed)) /\
    cnt_ok st <= cnt_ok st' /\
    (cnt_ok st' - cnt_ok st) + (cnt_prob st' - cnt_prob st)
    <= Z.of_nat (length lines).
Proof.
  intros Hall. revert st out.
  induction Hall as [|line lines Hline _ IH]; intros st out; simpl.
  - intros [= <- <-]. exists []. rewrite app_nil_r. split; [done|]. simpl. lia.
  - destruct (body repr max_str_digits line st) as [[st1 printed1]|]
      eqn:Hbody; [|done].
    intros Hloop. destruct (IH _ _ Hloop) as (printed & -> & Hp & Hok & Hsum).
    destruct (body_counts _ _ _ _ Hline Hbody) as (Hp1 & Hok1 & Hsum1).
    exists (printed1 ++ printed). rewrite app_assoc. split; [done|].
    rewrite List.filter_app, length_app. lia.
Qed.

(** X16: an exit line that is no indicator line and does not report an
    abnormal exit is echoed and judged: the run counts as OK exactly when
    the receive indicator was seen iff the expected direction is at most
    zero and the send indicator was seen iff it is at least zero;
    otherwise one complaint is printed and the run counts as a problem.
    The expectation and the indicators are left as they were. *)
Theorem exit_line_verdict (line : string) (st : Namerunner.state) :
  Namerunner.re_exit line = true ->
  Namerunner.re_rxind line = false -> Namerunner.re_txind line = false ->
  Namerunner.re_abnorm line = false ->
  exists st',
    (if bool_decide
          (Namerunner.st_rx st = (Namerunner.st_dir st <=? 0) /\
           Namerunner.st_tx st = (0 <=? Namerunner.st_dir st))
     then Namerunner.body repr max_str_digits line st
          = Some (st', [line]) /\
          Namerunner.cnt_ok st' = Namerunner.cnt_ok st + 1 /\
          Namerunner.cnt_prob st' = Namerunner.cnt_prob st
     else exists text,
          Namerunner.body repr max_str_digits line st
          = Some (st', [line; text]) /\
          Namerunner.complaint text = true /\
          Namerunner.cnt_ok st' = Namerunner.cnt_ok st /\
          Namerunner.cnt_prob st' = Namerunner.cnt_prob st + 1) /\
    Namerunner.st_dir st' = Namerunner.st_dir st /\
    Namerunner.st_name st' = Namerunner.st_name st /\
    Namerunner.st_rx st' = Namerunner.st_rx st /\
    Namerunner.st_tx st' = Namerunner.st_tx st.
Proof.
  intros Hexit Hrx Htx Hab.
  destruct (exit_line_not_other _ Hexit) as [Hexp Hus].
  assert (Hecho : echo line = [line]).
  { unfold re_exit in Hexit.
    by apply bool_decide_eq_true in Hexit as [r ->%strip_prefix_Some]. }
  unfold body. rewrite Hexp, Hus, Hrx, Htx, Hab, Hexit, Hecho.
  destruct (exit_complaint st) as [text|] eqn:Hc.
  - exists (problem st). rewrite bool_decide_eq_false_2.
    + split; [|done]. exists text. split; [done|].
      split; [by eapply exit_complaint_is_complaint|done].
    + intros Hok%exit_complaint_none. congruence.
  - eexists. rewrite bool_decide_eq_true_2 by by apply exit_complaint_none.
    simpl. done.
Qed.

(** X17: when no input line begins with the complaint mark, a report that
    is read to its end prints, before the two summary lines, exactly as
    many complaint lines as the problem total says; the two totals are
    not negative and together count at most one per input line. *)
Theorem problems_counted_are_complaints_printed
    (input : string) (out : list string) :
  Forall (fun l => Namerunner.complaint l = false)
    (Namerunner.split_lines input) ->
  Namerunner.main repr max_str_digits input = Namerunner.Finished out ->
  exists printed ok prob,
    out = printed ++ [ "# OK runs: " +:+ pretty ok;
                       "# problems: " +:+ pretty prob ] /\
    prob = Z.of_nat (length (List.filter Namerunner.complaint printed)) /\
    0 <= ok /\
    ok + prob <= Z.of_nat (length (Namerunner.split_lines input)).
Proof.
  intros Hall. unfold main.
  destruct (loop repr max_str_digits _ initial []) as [[st out']|]
    eqn:Hloop; [|done].
  intros [= <-].
  destruct (loop_counts _ _ _ _ _ Hall Hloop) as (printed & -> & Hp & Hok & Hsum).
  exists printed, (cnt_ok st), (cnt_prob st). simpl in *.
  split; [done|]. lia.
Qed.

Lemma loop_raises (lines : list string) (st : state) (out : list string) :
  (exists out', loop repr max_str_digits lines st out = inr out') <->
  Exists (fun line => exists g1 g2,
            re_expect line = Some (g1, g2) /\
            int_of max_str_digits g1 = None) lines.
Proof.
  revert st out. induction lines as [|line lines IH]; intros st out; simpl.
  - split; [intros [? [=]]|intros H; inversion H].
  - rewrite Exists_cons.
    destruct (body repr max_str_digits line st) as [[st1 printed]|] eqn:Hbody.
    + rewrite IH. split; [by right|]. intros [(g1 & g2 & Hm & Hi)|H]; [|done].
      unfold body in Hbody. rewrite Hm, Hi in Hbody. done.
    + split; [|by eexists]. intros _. left.
      unfold body in Hbody. repeat case_match; try done. simplify_eq. eauto.
Qed.

(** X18: the script dies of the [ValueError] of [int], without printing
    the summary, exactly when some input line is an expectation line
    whose direction field [int] does not convert: one that is not an
    optional minus sign before one or more digits, or that has more
    digits than the limit of the interpreter. *)
Theorem value_error_iff_bad_direction (input : string) :
  (exists out, Namerunner.main repr max_str_digits input = Namerunner.ValueError out) <->
  Exists (fun line => exists g1 g2,
            Namerunner.re_expect line = Some (g1, g2) /\
            Namerunner.int_of max_str_digits g1 = None)
    (Namerunner.split_lines input).
Proof.
  rewrite <- (loop_raises _ initial []). unfold main.
  destruct (loop repr max_str_digits _ initial []) as [[st out]|out].
  - split; intros [? [=]].
  - split; intros _; eauto.
Qed.

End NamerunnerProofs.

(** * The command feeder *)

Section CmdcatProofs.

Import Cmdcat.

Context `{HOST : Host}.

Lemma command_kind (line : string) (w w' : world) :
  match command line w with
  | Done _ => exists w1, command line w' = Done w1
  | Stop => command line w' = Stop
  | Failed message => command line w' = Failed message
  end.
Proof.
  unfold command. repeat case_match; simplify_eq; eauto.
Qed.

Lemma failing_Failed (line : string) (w : world) (message : string) :
  command line w = Failed message -> failing line.
Proof.
  intros E w'. pose proof (command_kind line w w') as H.
  rewrite E in H. eauto.
Qed.

Lemma command_Stop (line : string) (w : world) :
  command line w = Stop <-> line = "exit".
Proof.
  split.
  - unfold command. repeat case_match; try done.
    intros _. by apply String.eqb_eq.
  - intros ->. done.
Qed.

Lemma run_gives_up (lines : list string) (fails : Z) (w : world) :
  0 <= fails <= 100 ->
  (run lines fails w).1 = GaveUp <-> gives_up fails lines.
Proof.
  revert fails w. induction lines as [|line rest IH]; intros fails w Hf.
  - simpl. split; [done|]. intros [(bad & post & E & Hlen & _)
                                  |(pre & bad & post & E & Hlen & _)].
    + symmetry in E. apply app_eq_nil in E as [-> _]. simpl in Hlen. lia.
    + symmetry in E. apply app_eq_nil in E as [_ [-> _]%app_eq_nil].
      done.
  - simpl. destruct (command line w) as [w1|  |message] eqn:Hc.
    + (* the line succeeds *)
      assert (Hnf : ~ failing line).
      { intros Hfail. destruct (Hfail w) as [m Hm]. congruence. }
      assert (Hne : line <> "exit").
      { intros ->. by rewrite (proj2 (command_Stop _ w) eq_refl) in Hc. }
      rewrite IH by lia. split.
      * intros [(bad & post & -> & Hlen & Hbad)
               |(pre & bad & post & -> & Hlen & Hbad & Hpre)].
        -- right. exists [line], bad, post. repeat split; try done; [lia|].
           by constructor.
        -- right. exists (line :: pre), bad, post. repeat split; try done.
           by constructor.
      * intros [(bad & post & E & Hlen & Hbad)
               |(pre & bad & post & E & Hlen & Hbad & Hpre)].
        -- destruct bad as [|b bad]; [simpl in Hlen; lia|].
           injection E as -> ->. by inversion Hbad.
        -- destruct pre as [|p pre].
           ++ destruct bad as [|b bad]; [done|].
              injection E as -> ->. by inversion Hbad.
           ++ injection E as -> ->. right. exists pre, bad, post.
              repeat split; try done. by inversion Hpre.
    + (* the line is an exit line *)
      apply command_Stop in Hc. subst line. simpl. split; [done|].
      assert (Hnf : ~ failing "exit").
      { intros Hfail. destruct (Hfail w) as [m Hm]. done. }
      intros [(bad & post & E & Hlen & Hbad)
             |(pre & bad & post & E & Hlen & Hbad & Hpre)].
      * destruct bad as [|b bad]; [simpl in Hlen; lia|].
        injection E as <- ->. by inversion Hbad.
      * destruct pre as [|p pre].
        -- destruct bad as [|b bad]; [done|].
           injection E as <- ->. by inversion Hbad.
        -- injection E as <- ->. inversion Hpre; done.
    + (* the line fails *)
      pose proof (failing_Failed _ _ _ Hc) as Hfail.
      assert (Hne : line <> "exit").
      { intros ->. by rewrite (proj2 (command_Stop _ w) eq_refl) in Hc. }
      destruct (Z.gtb_spec (fails + 1) 100) as [Hgt|Hle].
      * simpl. split; [intros _|done]. left. exists [line], rest.
        repeat split; [simpl; lia|by constructor].
      * rewrite IH by lia. split.
        -- intros [(bad & post & -> & Hlen & Hbad)
                  |(pre & bad & post & -> & Hlen & Hbad & Hpre)].
           ++ left. exists (line :: bad), post.
              repeat split; [simpl; lia|by constructor].
           ++ right. exists (line :: pre), bad, post.
              repeat split; try done. by constructor.
        -- intros [(bad & post & E & Hlen & Hbad)
                  |(pre & bad & post & E & Hlen & Hbad & Hpre)].
           ++ destruct bad as [|b bad]; [simpl in Hlen; lia|].
              injection E as -> ->. left. exists bad, post.
              repeat split; [simpl in Hlen; lia|by inversion Hbad].
           ++ destruct pre as [|p pre].
              ** destruct bad as [|b bad]; [done|].
                 injection E as -> ->. left.
                 exists (take (Z.to_nat (100 - fails)) bad),
                        (drop (Z.to_nat (100 - fails)) bad ++ post).
                 repeat split.
                 --- by rewrite app_assoc, take_drop.
                 --- rewrite length_take. simpl in Hlen. lia.
                 --- apply Forall_take. by inversion Hbad.
              ** injection E as -> ->. right. exists pre, bad, post.
                 repeat split; try done. by inversion Hpre.
Qed.

(** X19: the script terminates for too many failures exactly when the
    input has 101 lines in a row whose commands raise an exception, with
    no exit line before them. *)
Theorem gives_up_iff_101_failures_in_a_row
    (lines : list string) (w : Cmdcat.world) :
  (Cmdcat.run lines 0 w).1 = Cmdcat.GaveUp <->
  exists pre bad post,
    lines = pre ++ bad ++ post /\ length bad = 101%nat /\
    Forall Cmdcat.failing bad /\ Forall (fun l => l <> "exit") pre.
Proof.
  rewrite run_gives_up by lia. split; [|by right].
  intros [(bad & post & -> & Hlen & Hbad)|H]; [|done].
  exists [], bad, post. repeat split; try done. lia.
Qed.

(** X20: what follows an exit line in the input has no effect on how the
    script ends or on what it has written, complained about and slept. *)
Theorem nothing_read_after_exit
    (pre post : list string) (fails : Z) (w : Cmdcat.world) :
  Cmdcat.run (pre ++ "exit" :: post) fails w
  = Cmdcat.run (pre ++ ["exit"]) fails w.
Proof.
  revert fails w. induction pre as [|line pre IH]; intros fails w; simpl.
  - done.
  - destruct (command line w); [apply IH|done|].
    destruct (fails + 1 >? 100); [done|apply IH].
Qed.

End CmdcatProofs.

(** * The further properties on scripted runs *)



Lemma replay_agrees_up_to_duplicates_witness :
  exists steps,
    stdout_of (log (demo_world 3))
    = flat_map (primary_lines (RT := demo_runtime) 4) steps ++ [".x"] /\
    stderr_of (log (demo_world 3))
    = flat_map (oracle_lines (RT := demo_runtime) 4) steps ++ ["received command for x .x"] /\
    map (fun s => canonical (step_sources s)) steps
    = replay [] (map command_of steps).
Proof.
  apply (replay_agrees_up_to_duplicates (RT := demo_runtime) 3 0 4 4 3
           (Exited 0) (demo_globals 3) (demo_world 3)).
  vm_compute. reflexivity.
Defined.

Lemma accepted_attempt_matches_command_witness :
  sources (globals_of (plain_attempt 1)) = [0x0a000003; 0x0a000007] /\
  apply_command (sources (globals_of (plain_run 1)))
    (deltype (globals_of (plain_attempt 1)),
     delta (globals_of (plain_attempt 1)))
  = [0x0a000003; 0x0a000007].
Proof.
  rewrite <- (accepted_attempt_matches_command (RT := plain_runtime) 4 4
                (globals_of (plain_run 1)) (plain_run 1).2
                (globals_of (plain_attempt 1)) (plain_attempt 1).2).
  - split; vm_compute; reflexivity.
  - lia.
  - vm_compute. reflexivity.
  - vm_compute. repeat constructor.
  - vm_compute. apply NoDup_singleton.
  - intros Hkind. vm_compute in Hkind. discriminate Hkind.
Defined.

Lemma no_empty_delta_commands_witness :
  exists steps,
    stdout_of (log (demo_world 3))
    = flat_map (primary_lines (RT := demo_runtime) 4) steps ++ [".x"] /\
    stderr_of (log (demo_world 3))
    = flat_map (oracle_lines (RT := demo_runtime) 4) steps ++ ["received command for x .x"] /\
    Forall (fun s => step_kind s <> "" -> step_delta s <> []) steps.
Proof.
  apply (no_empty_delta_commands (RT := demo_runtime) 3 0 4 4 3
           (Exited 0) (demo_globals 3) (demo_world 3)).
  vm_compute. reflexivity.
Defined.

Lemma addrmax_one_prints_empty_sets_witness :
  stdout_of (log (narrow_run 5).2)
  = ["-E-"; "?E"; "-E-"; "?E"; "-E-"; "?E"; ".x"].
Proof.
  destruct (addrmax_one_prints_empty_sets (RT := narrow_runtime) 5 0 4 3
              (Exited 0) (globals_of (narrow_run 5)) (narrow_run 5).2)
    as (_ & Hout & _).
  - vm_compute. reflexivity.
  - rewrite Hout. vm_compute. reflexivity.
Defined.

Lemma sources_come_from_printed_commands_witness :
  exists steps,
    stdout_of (log (demo_world 2)) = flat_map (primary_lines (RT := demo_runtime) 4) steps /\
    exists c, c ∈ steps /\ step_kind c <> "-" /\ 0x0a000007 ∈ step_delta c.
Proof.
  destruct (sources_come_from_printed_commands (RT := demo_runtime) 2 0 4 4 3
              Running (demo_globals 2) (demo_world 2))
    as (steps & Hout & Hmem).
  - vm_compute. reflexivity.
  - exists steps. split.
    + rewrite Hout. simpl. apply app_nil_r.
    + apply Hmem. vm_compute. right. left.
Defined.

Lemma duplicates_come_from_absolute_sets_witness :
  NoDup (sources (globals_of (demo_attempt 1))).
Proof.
  destruct (duplicates_come_from_absolute_sets (RT := demo_runtime) 4 4
              (demo_globals 1) (demo_world 1)
              (globals_of (demo_attempt 1)) (demo_attempt 1).2)
    as (_ & Hadditive & _).
  - lia.
  - vm_compute. reflexivity.
  - apply Hadditive. vm_compute. reflexivity.
Defined.

Lemma mkaddr_density_zero_returns_base_witness :
  exists w',
    mkaddr (RT := demo_runtime) 4 (Some 0x0a000003) 0 (demo_world 1)
    = (Ok 0x0a000003, w').
Proof.
  apply (mkaddr_density_zero_returns_base (RT := demo_runtime) 4
           (Some 0x0a000003) 0 (demo_world 1)).
  vm_compute. discriminate.
Defined.

Lemma addr_bytes_injective_witness :
  addr_bytes 4 (0x0a000000 + 3) = addr_bytes 4 0x0a000003 /\
  0x0a000000 + 3 = 0x0a000003.
Proof.
  assert (Hbytes : addr_bytes 4 (0x0a000000 + 3) = addr_bytes 4 0x0a000003)
    by (vm_compute; reflexivity).
  split; [exact Hbytes|].
  apply (addr_bytes_injective 4 (0x0a000000 + 3) 0x0a000003).
  - vm_compute. split; [discriminate|reflexivity].
  - vm_compute. split; [discriminate|reflexivity].
  - exact Hbytes.
Defined.

Lemma exit_line_verdict_witness :
  exists st',
    Namerunner.body Namerunner.repr_plain 4300 "# exit"
      (Namerunner.State 0 "?" true true 0 0)
    = Some (st', ["# exit"]) /\
    Namerunner.cnt_ok st' = 1.
Proof.
  destruct (exit_line_verdict Namerunner.repr_plain 4300 "# exit"
              (Namerunner.State 0 "?" true true 0 0))
    as (st' & Hverdict & _).
  - vm_compute. reflexivity.
  - vm_compute. reflexivity.
  - vm_compute. reflexivity.
  - vm_compute. reflexivity.
  - exists st'. destruct Hverdict as (Hbody & Hok & _).
    split; [exact Hbody|exact Hok].
Defined.

Lemma problems_counted_are_complaints_printed_witness :
  exists printed ok prob,
    Namerunner.sample_output
    = printed ++ [ "# OK runs: " +:+ pretty ok;
                   "# problems: " +:+ pretty prob ] /\
    prob = Z.of_nat (length (List.filter Namerunner.complaint printed)) /\
    0 <= ok /\
    ok + prob
    <= Z.of_nat (length (Namerunner.split_lines Namerunner.sample_report)).
Proof.
  apply (problems_counted_are_complaints_printed Namerunner.repr_plain 4300
           Namerunner.sample_report Namerunner.sample_output).
  - vm_compute. repeat constructor.
  - vm_compute. reflexivity.
Defined.
